(** * Lazy document loading: loaders, blobs and line parsers

    A shallow embedding of the document-loading code of the
    "custom document loader" notebook: [CustomDocumentLoader], [MyParser]
    and the library pieces they are composed with ([Blob], [BaseLoader],
    [GenericLoader], blob loaders).

    Python generators are embedded as finite resumptions ([gen]): a
    generator either returns, raises, yields a value and waits to be
    resumed, opens a file, or (asynchronous generators only) suspends
    to the event loop.  A consumer drives a generator against a file
    system and a log of the payloads resolved so far.  Where two calls
    of a generator function have to be told apart, the generators of
    [MyParser.lazy_parse] are objects kept by address ([objects]). *)

From Stdlib Require Import ZArith Ascii String List Lia Bool.
From stdpp Require Import base option list strings gmap.

Local Open Scope string_scope.
Local Open Scope list_scope.

(** ** Bytes, text and lines *)

(** A Python [bytes] object is the string of its bytes; a Python [str]
    is represented by the string of its UTF-8 encoding. *)
Definition bytes : Type := string.
Definition str : Type := string.

Definition LF : ascii := "010"%char.
Definition CR : ascii := "013"%char.

Definition is_LF (c : ascii) : bool := Ascii.eqb c LF.
Definition is_CR (c : ascii) : bool := Ascii.eqb c CR.

(** [readline] of a binary stream: the bytes up to and including the
    next LF, or up to the end of the stream; and what is left. *)
Fixpoint readline (s : bytes) : bytes * bytes :=
  match s with
  | EmptyString => (EmptyString, EmptyString)
  | String c r =>
      if is_LF c then (String c EmptyString, r)
      else let (l, r') := readline r in (String c l, r')
  end.

(** Iterating a stream ([for line in f]) calls [readline] until it
    returns the empty string.  [iter_lines] is that sequence of lines,
    by structural recursion; [iter_lines_readline] below shows that it
    is the iteration of [readline]. *)
Fixpoint iter_lines (s : bytes) : list bytes :=
  match s with
  | EmptyString => []
  | String c r =>
      if is_LF c then String c EmptyString :: iter_lines r
      else match iter_lines r with
           | [] => [String c EmptyString]
           | l :: ls => String c l :: ls
           end
  end.

(** Text mode with the default [newline=None] (universal newlines): on
    input, [CR LF] and a lone [CR] are both delivered as [LF]. *)
Fixpoint universal_newlines (s : str) : str :=
  match s with
  | EmptyString => EmptyString
  | String c r =>
      if is_CR c then
        match r with
        | String c' r' =>
            if is_LF c' then String LF (universal_newlines r')
            else String LF (universal_newlines r)
        | EmptyString => String LF EmptyString
        end
      else String c (universal_newlines r)
  end.

(** Well-formed UTF-8, as the strict [utf-8] codec accepts it: shortest
    forms only, no surrogates, nothing above U+10FFFF. *)
Definition byte_in (lo hi : N) (c : ascii) : bool :=
  let n := N_of_ascii c in (N.leb lo n && N.leb n hi)%bool.

Definition utf8_tail (c : ascii) : bool := byte_in 128 191 c.

Fixpoint utf8_valid (s : bytes) : bool :=
  match s with
  | EmptyString => true
  | String b0 r0 =>
      if byte_in 0 127 b0 then utf8_valid r0
      else
        match r0 with
        | EmptyString => false
        | String b1 r1 =>
            if byte_in 194 223 b0 then (utf8_tail b1 && utf8_valid r1)%bool
            else
              match r1 with
              | EmptyString => false
              | String b2 r2 =>
                  if byte_in 224 239 b0 then
                    ((if byte_in 224 224 b0 then byte_in 160 191 b1
                      else if byte_in 237 237 b0 then byte_in 128 159 b1
                      else utf8_tail b1)
                     && utf8_tail b2 && utf8_valid r2)%bool
                  else
                    match r2 with
                    | EmptyString => false
                    | String b3 r3 =>
                        (byte_in 240 244 b0
                         && (if byte_in 240 240 b0 then byte_in 144 191 b1
                             else if byte_in 244 244 b0 then byte_in 128 143 b1
                             else utf8_tail b1)
                         && utf8_tail b2 && utf8_tail b3 && utf8_valid r3)%bool
                    end
              end
        end
  end.

(** *** Reading a text file

    A file opened with [open(path, encoding="utf-8")] is read through
    three layers.  The text layer asks the buffered reader for chunks
    of [CHUNK_SIZE] bytes; an incremental UTF-8 decoder turns each
    chunk into text, keeping back a sequence that the chunk cuts
    short; the newline decoder reads [CR LF] and [CR] as [LF], keeping
    back a [CR] that ends a chunk; the lines are cut from the text
    decoded so far.  A chunk that does not decode raises
    [UnicodeDecodeError] when it is read: the lines completed by the
    chunks before it have been delivered by then. *)

Definition CHUNK_SIZE : nat := 8 * 1024.

(** [cut n room s]: the bytes of [s] that still fit in the chunk being
    filled ([room] bytes free), and the chunks of [n] bytes after it. *)
Fixpoint cut (n room : nat) (s : bytes) : bytes * list bytes :=
  match s with
  | EmptyString => (EmptyString, [])
  | String c r =>
      match room with
      | S room' => let (cur, rest) := cut n room' r in (String c cur, rest)
      | O => let (cur, rest) := cut n (n - 1) r in (EmptyString, String c cur :: rest)
      end
  end.

(** The successive reads of [n] bytes of a file; the last may be
    shorter, none is empty. *)
Definition chunks (n : nat) (s : bytes) : list bytes :=
  let (cur, rest) := cut n n s in
  match cur with
  | EmptyString => rest
  | _ => cur :: rest
  end.

Definition decoded_more (seq : string) (r : option (str * bytes))
    : option (str * bytes) :=
  match r with
  | Some (d, p) => Some (seq +:+ d, p)
  | None => None
  end.

(** One call of the incremental UTF-8 decoder on the bytes kept back
    followed by a chunk: the text of the complete sequences, and the
    bytes of a last sequence that is cut short and may still become
    well formed; [None] when a sequence is ill formed. *)
Fixpoint utf8_chunk (s : bytes) : option (str * bytes) :=
  match s with
  | EmptyString => Some (EmptyString, EmptyString)
  | String b0 r0 =>
      if byte_in 0 127 b0 then decoded_more (String b0 EmptyString) (utf8_chunk r0)
      else if byte_in 194 223 b0 then
        match r0 with
        | EmptyString => Some (EmptyString, s)
        | String b1 r1 =>
            if utf8_tail b1
            then decoded_more (String b0 (String b1 EmptyString)) (utf8_chunk r1)
            else None
        end
      else if byte_in 224 239 b0 then
        match r0 with
        | EmptyString => Some (EmptyString, s)
        | String b1 r1 =>
            if (if byte_in 224 224 b0 then byte_in 160 191 b1
                else if byte_in 237 237 b0 then byte_in 128 159 b1
                else utf8_tail b1)
            then
              match r1 with
              | EmptyString => Some (EmptyString, s)
              | String b2 r2 =>
                  if utf8_tail b2
                  then decoded_more (String b0 (String b1 (String b2 EmptyString)))
                         (utf8_chunk r2)
                  else None
              end
            else None
        end
      else if byte_in 240 244 b0 then
        match r0 with
        | EmptyString => Some (EmptyString, s)
        | String b1 r1 =>
            if (if byte_in 240 240 b0 then byte_in 144 191 b1
                else if byte_in 244 244 b0 then byte_in 128 143 b1
                else utf8_tail b1)
            then
              match r1 with
              | EmptyString => Some (EmptyString, s)
              | String b2 r2 =>
                  if utf8_tail b2 then
                    match r2 with
                    | EmptyString => Some (EmptyString, s)
                    | String b3 r3 =>
                        if utf8_tail b3
                        then decoded_more
                               (String b0 (String b1 (String b2 (String b3 EmptyString))))
                               (utf8_chunk r3)
                        else None
                    end
                  else None
              end
            else None
        end
      else None
  end.

(** The decoder over the chunks of a file: the pieces of text decoded
    before the first chunk that fails, and whether the whole file was
    decoded.  At the end of the file the bytes kept back are decoded
    as they are. *)
Fixpoint utf8_pieces (pending : bytes) (cs : list bytes) : list str * bool :=
  match cs with
  | [] => if utf8_valid pending then ([pending], true) else ([], false)
  | c :: cs' =>
      match utf8_chunk (pending +:+ c) with
      | None => ([], false)
      | Some (d, p) => let (ds, ok) := utf8_pieces p cs' in (d :: ds, ok)
      end
  end.

(** [s] without a carriage return at its end, and whether there was
    one. *)
Fixpoint strip_cr (s : str) : str * bool :=
  match s with
  | EmptyString => (EmptyString, false)
  | String c r =>
      match r with
      | EmptyString => if is_CR c then (EmptyString, true) else (s, false)
      | _ => let (r', cr) := strip_cr r in (String c r', cr)
      end
  end.

(** The newline decoder over the pieces of text: a [CR] that ends a
    piece is kept back until the next piece shows what follows it;
    [final] says that the end of the file was reached, where a [CR]
    kept back is a line end. *)
Fixpoint newline_pieces (pendingcr : bool) (ds : list str) (final : bool)
    : list str :=
  match ds with
  | [] => if final then [universal_newlines (if pendingcr then String CR EmptyString
                                             else EmptyString)]
          else []
  | d :: ds' =>
      let output :=
        match d with
        | EmptyString => EmptyString
        | _ => if pendingcr then String CR d else d
        end in
      let pendingcr :=
        match d with
        | EmptyString => pendingcr
        | _ => false
        end in
      let (output, cr) := strip_cr output in
      universal_newlines output :: newline_pieces (pendingcr || cr) ds' final
  end.

(** The complete lines of [s], and what follows the last line feed. *)
Fixpoint split_complete (s : str) : list str * str :=
  match s with
  | EmptyString => ([], EmptyString)
  | String c r =>
      let (ls, rest) := split_complete r in
      if is_LF c then (String c EmptyString :: ls, rest)
      else match ls with
           | [] => ([], String c rest)
           | l :: ls' => (String c l :: ls', rest)
           end
  end.

(** The lines delivered from the pieces of text: every piece is added
    to what is left of the pieces before, and the complete lines are
    taken from it; at the end of the file what is left is the last
    line. *)
Fixpoint lines_of_pieces (buf : str) (qs : list str) (final : bool) : list str :=
  match qs with
  | [] => if final then iter_lines buf else []
  | q :: qs' =>
      let (complete, rest) := split_complete (buf +:+ q) in
      complete ++ lines_of_pieces rest qs' final
  end.

(** What iterating a file opened with [open(path, encoding="utf-8")]
    delivers: the lines, and whether the end of the file was reached
    ([false]: [UnicodeDecodeError] after these lines). *)
Definition text_read (data : bytes) : list str * bool :=
  let (decoded, ok) := utf8_pieces EmptyString (chunks CHUNK_SIZE data) in
  (lines_of_pieces EmptyString (newline_pieces false decoded ok) ok, ok).

(** ** Values, documents and blobs *)

(** The scalar values that appear in metadata. *)
Inductive pyval : Type :=
| VNone
| VInt (z : Z)
| VStr (s : str).

Definition of_optional (o : option str) : pyval :=
  match o with
  | Some s => VStr s
  | None => VNone
  end.

(** Modelled from the spec: [Document(page_content=..., metadata=...)],
    the library's record type (section 3): a text payload and a mapping
    from string keys to scalar values. *)
Record Document : Type := mkDocument {
  page_content : str;
  metadata : gmap string pyval
}.

(** Modelled from the spec: the constructor
    [Document(page_content=line, ...)] applied to a [bytes] object.
    The content of a record is a text (section 3), so the bytes are
    decoded as UTF-8, as the outputs of the notebook show; bytes that
    are not UTF-8 have no text and are refused: [None] stands for the
    [ValidationError] of the library. *)
Definition Document_of_bytes (line : bytes) (md : gmap string pyval)
    : option Document :=
  if utf8_valid line then Some (mkDocument line md) else None.

Definition line_number (d : Document) : option pyval := metadata d !! "line_number".
Definition source_of (d : Document) : option pyval := metadata d !! "source".

(** Exceptions that can surface from a lazy sequence. *)
Inductive exn : Type :=
| FileNotFoundError (path : string)
| UnicodeDecodeError
| ValidationError
| NotImplementedError
| SourceEnumerationError (msg : string)
| DecodeError (msg : string).

(** Modelled from the spec: the payload of a [Blob] (section 3 of the
    specification), either an in-memory byte sequence or a reference to
    the bytes at the origin, not read until requested. *)
Inductive payload : Type :=
| InMemory (data : bytes)
| AtOrigin.

(** Modelled from the spec: [Blob], the library's value object for raw
    content (section 3 of the specification): an optional origin, a
    payload, an encoding hint, an optional MIME type and caller
    metadata.  [source] is the origin ([blob.source] in the notebook). *)
Record Blob : Type := mkBlob {
  source : option string;
  blob_payload : payload;
  encoding : string;
  mimetype : option string;
  blob_metadata : gmap string pyval
}.

(** Modelled from the spec: [Blob(data=b"...")], content purely in
    memory, origin absent. *)
Definition Blob_data (data : bytes) : Blob :=
  mkBlob None (InMemory data) "utf-8" None ∅.

(** Modelled from the spec: [Blob.from_path(path, metadata=...)], as a
    source constructs it once per discovered item; nothing is read. *)
Definition Blob_from_path (path : string) (md : gmap string pyval) : Blob :=
  mkBlob (Some path) AtOrigin "utf-8" None md.

(** ** Generators *)

(** A generator body, as far as a consumer can tell.  [Open path k]
    opens the file at [path] and goes on with its content; [Suspend]
    is an [await] and occurs in asynchronous generators only. *)
Inductive gen (A : Type) : Type :=
| Return : gen A
| Raise (e : exn) : gen A
| Yield (a : A) (k : gen A) : gen A
| Open (path : string) (k : bytes -> gen A) : gen A
| Suspend (k : gen A) : gen A.

Arguments Return {A}.
Arguments Raise {A} e.
Arguments Yield {A} a k.
Arguments Open {A} path k.
Arguments Suspend {A} k.

(** How a sequence ends: exhausted, or with an exception. *)
Inductive ending : Type :=
| Exhausted
| Failed (e : exn).

(** The regular files of the machine that the process may read, by
    path, and the log of the paths whose content has been read so far
    (oldest first).  A path without an entry is a path at which there
    is nothing: [open] raises [FileNotFoundError].  Directories,
    files that may not be read and malformed paths, which [open]
    refuses with other exceptions, are not represented. *)
Abbreviation filesystem := (gmap string bytes).
Abbreviation log := (list string).

(** One [next(g)]. *)
Inductive step (A : Type) : Type :=
| Yielded (a : A) (k : gen A)
| StopIteration
| Raised (e : exn).

Arguments Yielded {A} a k.
Arguments StopIteration {A}.
Arguments Raised {A} e.

Section Consumers.
Context {A : Type}.
Variable fs : filesystem.

Fixpoint next (g : gen A) (st : log) : log * step A :=
  match g with
  | Return => (st, StopIteration)
  | Raise e => (st, Raised e)
  | Yield a k => (st, Yielded a k)
  | Open path k =>
      match fs !! path with
      | Some data => next (k data) (st ++ [path])
      | None => (st, Raised (FileNotFoundError path))
      end
  | Suspend k => next k st
  end.

(** [list(g)], or a [for] loop that runs to the end: everything the
    generator yields, and how it ends. *)
Fixpoint drain (g : gen A) (st : log) : log * list A * ending :=
  match g with
  | Return => (st, [], Exhausted)
  | Raise e => (st, [], Failed e)
  | Yield a k =>
      let '(st', l, e) := drain k st in (st', a :: l, e)
  | Open path k =>
      match fs !! path with
      | Some data => drain (k data) (st ++ [path])
      | None => (st, [], Failed (FileNotFoundError path))
      end
  | Suspend k => drain k st
  end.

(** A consumer that asks for at most [n] items and then stops
    iterating.  [None]: the generator is left suspended at its
    [n]-th yield. *)
Fixpoint take (g : gen A) (n : nat) (st : log) : log * list A * option ending :=
  match n with
  | O => (st, [], None)
  | S m =>
      match g with
      | Return => (st, [], Some Exhausted)
      | Raise e => (st, [], Some (Failed e))
      | Yield a k =>
          let '(st', l, e) := take k m st in (st', a :: l, e)
      | Open path k =>
          match fs !! path with
          | Some data => take (k data) (S m) (st ++ [path])
          | None => (st, [], Some (Failed (FileNotFoundError path)))
          end
      | Suspend k => take k (S m) st
      end
  end.

Definition records (g : gen A) : list A := snd (fst (drain g [])).
Definition outcome (g : gen A) : ending := snd (drain g []).
Definition resolved (g : gen A) : log := fst (fst (drain g [])).
End Consumers.

(** [yield from g], then [rest]. *)
Fixpoint yield_from {A} (g : gen A) (rest : gen A) : gen A :=
  match g with
  | Return => rest
  | Raise e => Raise e
  | Yield a k => Yield a (yield_from k rest)
  | Open path k => Open path (fun data => yield_from (k data) rest)
  | Suspend k => Suspend (yield_from k rest)
  end.

(** [for x in s: yield from body(x)] *)
Fixpoint for_each {B A} (s : gen B) (body : B -> gen A) : gen A :=
  match s with
  | Return => Return
  | Raise e => Raise e
  | Yield b k => yield_from (body b) (for_each k body)
  | Open path k => Open path (fun data => for_each (k data) body)
  | Suspend k => Suspend (for_each k body)
  end.

(** ** The interfaces of the library *)

(** Modelled from the spec: the interface [BaseBlobParser] (section
    4.1); [lazy_parse(blob)] is the one operation a parser implements,
    and it takes nothing but the blob. *)
Class BaseBlobParser (P : Type) : Type :=
  lazy_parse : P -> Blob -> gen Document.

(** Modelled from the spec: the interface [BlobLoader] (section 4.2);
    a source enumerates blobs. *)
Class BlobLoader (Src : Type) : Type :=
  yield_blobs : Src -> gen Blob.

(** Modelled from the spec: the interface [BaseLoader] (section 4.3);
    [lazy_load] and its asynchronous variant, neither of which takes an
    argument. *)
Class BaseLoader (L : Type) : Type := {
  lazy_load : L -> gen Document;
  alazy_load : L -> gen Document
}.

(** Modelled from the spec: [blob.as_bytes_io()], the byte stream of a
    blob.  Bytes in memory are handed over as they are; a payload at
    the origin is read when, and only when, the stream is asked for. *)
Definition as_bytes_io {A} (blob : Blob) (k : bytes -> gen A) : gen A :=
  match blob_payload blob with
  | InMemory data => k data
  | AtOrigin =>
      match source blob with
      | Some path => Open path k
      | None => Raise NotImplementedError
      end
  end.

(** ** [CustomDocumentLoader] *)

Record CustomDocumentLoader : Type := { file_path : string }.

(** The body of [for line in f] in [lazy_load]: yield, then count. *)
Fixpoint lazy_load_loop (self : CustomDocumentLoader) (f : list str)
    (line_number : Z) : gen Document :=
  match f with
  | [] => Return
  | line :: f' =>
      Yield
        (mkDocument line
           {[ "line_number" := VInt line_number;
              "source" := VStr (file_path self) ]})
        (lazy_load_loop self f' (line_number + 1)%Z)
  end.

(** How [for line in f] ends once the lines the file delivers have
    been gone through: normally, or with the decoding error. *)
Definition end_of_file {A} (ok : bool) : gen A :=
  if ok then Return else Raise UnicodeDecodeError.

Definition CustomDocumentLoader_lazy_load (self : CustomDocumentLoader)
    : gen Document :=
  Open (file_path self) (fun data =>
    let (f, ok) := text_read data in
    let line_number := 0%Z in
    yield_from (lazy_load_loop self f line_number) (end_of_file ok)).

(** The body of [async for line in f] in [alazy_load]: every line is
    awaited, and so is the end of the file. *)
Fixpoint alazy_load_loop (self : CustomDocumentLoader) (f : list str)
    (line_number : Z) : gen Document :=
  Suspend
    match f with
    | [] => Return
    | line :: f' =>
        Yield
          (mkDocument line
             {[ "line_number" := VInt line_number;
                "source" := VStr (file_path self) ]})
          (alazy_load_loop self f' (line_number + 1)%Z)
    end.

(** [aiofiles.open] is [open] run on a worker thread and awaited. *)
Definition CustomDocumentLoader_alazy_load (self : CustomDocumentLoader)
    : gen Document :=
  Suspend
    (Open (file_path self) (fun data =>
       let (f, ok) := text_read data in
       let line_number := 0%Z in
       yield_from (alazy_load_loop self f line_number)
         (Suspend (end_of_file ok)))).

#[export] Instance CustomDocumentLoader_BaseLoader : BaseLoader CustomDocumentLoader := {
  lazy_load := CustomDocumentLoader_lazy_load;
  alazy_load := CustomDocumentLoader_alazy_load
}.

(** ** [MyParser] *)

Inductive MyParser : Type := MyParser_new.

(** The body of [for line in f] in [lazy_parse]: count, then yield. *)
Fixpoint lazy_parse_loop (blob : Blob) (f : list bytes) (line_number : Z)
    : gen Document :=
  match f with
  | [] => Return
  | line :: f' =>
      let line_number := (line_number + 1)%Z in
      match Document_of_bytes line
              {[ "line_number" := VInt line_number;
                 "source" := of_optional (source blob) ]} with
      | Some doc => Yield doc (lazy_parse_loop blob f' line_number)
      | None => Raise ValidationError
      end
  end.

Definition MyParser_lazy_parse (self : MyParser) (blob : Blob) : gen Document :=
  let line_number := 0%Z in
  as_bytes_io blob (fun f => lazy_parse_loop blob (iter_lines f) line_number).

#[export] Instance MyParser_BaseBlobParser : BaseBlobParser MyParser :=
  MyParser_lazy_parse.

(** ** Library classes the notebook builds on *)

(** Modelled from the spec: the default [alazy_load] of [BaseLoader],
    which delegates to [lazy_load]: every [next] of the synchronous
    generator is run on the scheduler and awaited. *)
Fixpoint run_in_executor {A} (g : gen A) : gen A :=
  match g with
  | Return => Return
  | Raise e => Raise e
  | Yield a k => Yield a (Suspend (run_in_executor k))
  | Open path k => Open path (fun data => run_in_executor (k data))
  | Suspend k => Suspend (run_in_executor k)
  end.

Definition default_alazy_load {A} (g : gen A) : gen A :=
  Suspend (run_in_executor g).

(** Modelled from the spec: [BaseLoader.load], documented in the
    notebook as [list(self.lazy_load())]. *)
Definition load `{BaseLoader L} (fs : filesystem) (self : L) (st : log)
    : log * list Document * ending :=
  drain fs (lazy_load self) st.

(** Modelled from the spec: [BaseLoader.aload], the asynchronous
    counterpart of [load], which collects [alazy_load]. *)
Definition aload `{BaseLoader L} (fs : filesystem) (self : L) (st : log)
    : log * list Document * ending :=
  drain fs (alazy_load self) st.

(** Modelled from the spec: [FileSystemBlobLoader(path, glob,
    show_progress)] (section 4.2).  [listing] is what the storage lists
    under the root for the pattern, in its listing order; enumeration
    builds one blob per item and reads none of them. *)
Record FileSystemBlobLoader : Type := {
  root : string;
  glob : string;
  show_progress : bool;
  listing : list string
}.

Fixpoint blobs_of (paths : list string) : gen Blob :=
  match paths with
  | [] => Return
  | p :: ps => Yield (Blob_from_path p ∅) (blobs_of ps)
  end.

#[export] Instance FileSystemBlobLoader_BlobLoader : BlobLoader FileSystemBlobLoader :=
  fun self => blobs_of (listing self).

(** Modelled from the spec: [GenericLoader(blob_loader, blob_parser)]
    (section 4.4): for each blob of the source, in enumeration order,
    the parser is invoked and every record is yielded again. *)
Record GenericLoader (Src P : Type) : Type := mkGenericLoader {
  blob_loader : Src;
  blob_parser : P
}.

Arguments mkGenericLoader {Src P} _ _.
Arguments blob_loader {Src P} _.
Arguments blob_parser {Src P} _.

Definition GenericLoader_lazy_load `{BlobLoader Src} `{BaseBlobParser P}
    (self : GenericLoader Src P) : gen Document :=
  for_each (yield_blobs (blob_loader self)) (lazy_parse (blob_parser self)).

#[export] Instance GenericLoader_BaseLoader `{BlobLoader Src} `{BaseBlobParser P}
    : BaseLoader (GenericLoader Src P) := {
  lazy_load := GenericLoader_lazy_load;
  alazy_load := fun self => default_alazy_load (GenericLoader_lazy_load self)
}.

(** [MyCustomLoader], the subclass of [GenericLoader] whose
    [get_parser] returns a [MyParser]; [from_filesystem] pairs it with a
    filesystem blob loader. *)
Definition MyCustomLoader_get_parser : MyParser := MyParser_new.

Definition MyCustomLoader_from_filesystem (path glob : string)
    (show_progress : bool) (listing : list string)
    : GenericLoader FileSystemBlobLoader MyParser :=
  mkGenericLoader
    {| root := path; glob := glob; show_progress := show_progress;
       listing := listing |}
    MyCustomLoader_get_parser.

(** [for doc in g: print(doc); break]: the consumer takes the first
    item and abandons the generator. *)
Fixpoint first_then_break {A} (g : gen A) : gen A :=
  match g with
  | Return => Return
  | Raise e => Raise e
  | Yield a _ => Yield a Return
  | Open path k => Open path (fun data => first_then_break (k data))
  | Suspend k => Suspend (first_then_break k)
  end.

(** The cell that runs a parser over the blobs of a blob loader by
    hand and prints the first document of each blob; the documents
    printed, in order. *)
Definition print_first_of_each `{BlobLoader Src} `{BaseBlobParser P}
    (loader : Src) (parser : P) : gen Document :=
  for_each (yield_blobs loader)
    (fun blob => first_then_break (lazy_parse parser blob)).

(** Test doubles: a source and a parser given by their generators. *)
#[export] Instance scripted_source : BlobLoader (gen Blob) := fun g => g.
#[export] Instance scripted_parser : BaseBlobParser (Blob -> gen Document) :=
  fun f => f.

(** What a sequence of sub-generators run one after the other delivers:
    the parts in order, up to and including the first one that fails;
    [last] is how the enumeration of the parts itself ended. *)
Fixpoint chain {A} (parts : list (list A * ending)) (last : ending)
    : list A * ending :=
  match parts with
  | [] => ([], last)
  | (l, Exhausted) :: t => let (l', e) := chain t last in (l ++ l', e)
  | (l, Failed e) :: _ => (l, Failed e)
  end.


(** ** Specification-side definitions *)

(** [free_of x s]: the byte [x] does not occur in [s]. *)
Fixpoint free_of (x : ascii) (s : string) : bool :=
  match s with
  | EmptyString => true
  | String c r => (negb (Ascii.eqb c x) && free_of x r)%bool
  end.

(** The lines of a byte buffer, as the specification words them: one
    entry per line, each with its terminator, and a partial last line
    (no terminator) counted as a line. *)
Inductive lines_of : bytes -> list bytes -> Prop :=
| lines_none : lines_of EmptyString []
| lines_partial (body : bytes) :
    body <> EmptyString -> free_of LF body = true ->
    lines_of body [body]
| lines_terminated (body rest : bytes) (ls : list bytes) :
    free_of LF body = true ->
    lines_of rest ls ->
    lines_of (body +:+ String LF rest) ((body +:+ String LF EmptyString) :: ls).

(** Full materialization of a lazy sequence: ask for the next item
    until the sequence stops or raises.  [fuel] bounds the number of
    requests. *)
Fixpoint materialize {A} (fs : filesystem) (fuel : nat) (g : gen A) (st : log)
    : option (log * list A * ending) :=
  match fuel with
  | O => None
  | S fuel' =>
      match next fs g st with
      | (st', Yielded a k) =>
          match materialize fs fuel' k st' with
          | Some (st'', l, e) => Some (st'', a :: l, e)
          | None => None
          end
      | (st', StopIteration) => Some (st', [], Exhausted)
      | (st', Raised e) => Some (st', [], Failed e)
      end
  end.

(** The position index of a record, as an integer. *)
Definition index_of (d : Document) : option Z :=
  match line_number d with
  | Some (VInt z) => Some z
  | _ => None
  end.

(** ** Inputs of the notebook and of the specification's scenarios *)

(** The one-byte string of a line feed. *)
Definition nl : string := String LF EmptyString.

(** [b"a\nb\nc"] *)
Definition a_b_c : bytes := "a" +:+ nl +:+ "b" +:+ nl +:+ "c".

(** [b"some data from memory\nmeow"] *)
Definition data_from_memory : bytes := "some data from memory" +:+ nl +:+ "meow".

(** The content written to [./meow.txt]. *)
Definition quality_content : bytes :=
  "meow meow🐱 " +:+ nl +:+ " meow meow🐱 " +:+ nl +:+ " meow😻😻".

Definition meow_fs : filesystem := {[ "./meow.txt" := quality_content ]}.

(** The scenario of the specification: a source that yields [B1] and
    [B2], and a parser that produces [r1a; r1b] from [B1] and [r2a]
    from [B2]. *)
Definition B1 : Blob := Blob_from_path "B1" ∅.
Definition B2 : Blob := Blob_from_path "B2" ∅.
Definition r1a : Document := mkDocument "r1a" ∅.
Definition r1b : Document := mkDocument "r1b" ∅.
Definition r2a : Document := mkDocument "r2a" ∅.

Definition two_blobs : gen Blob := Yield B1 (Yield B2 Return).

Definition table_parser : Blob -> gen Document := fun blob =>
  match source blob with
  | Some "B1" => Yield r1a (Yield r1b Return)
  | Some "B2" => Yield r2a Return
  | _ => Return
  end.

(** A source whose second blob cannot be enumerated. *)
Definition second_blob_unreachable : gen Blob :=
  Yield B1 (Raise (SourceEnumerationError "storage unreachable")).

(** A parser that fails on [B2] after one record. *)
Definition failing_parser : Blob -> gen Document := fun blob =>
  match source blob with
  | Some "B1" => Yield r1a (Yield r1b Return)
  | Some "B2" => Yield r2a (Raise (DecodeError "malformed"))
  | _ => Return
  end.

(** [GenericLoader(blob_loader=filesystem_blob_loader, blob_parser=parser)],
    as the notebook builds it, over the items the storage lists. *)
Definition generic_loader_filesystem (root glob : string) (progress : bool)
    (paths : list string) : GenericLoader FileSystemBlobLoader MyParser :=
  let filesystem_blob_loader :=
    {| root := root; glob := glob; show_progress := progress; listing := paths |} in
  let parser := MyParser_new in
  mkGenericLoader filesystem_blob_loader parser.



(** The comparison of the two implementations read literally: on any
    file, the standalone loader and the parser yield the same contents
    in the same order. *)
Definition loader_and_parser_same_contents : Prop :=
  forall (fs : filesystem) (path : string) (data : bytes),
    fs !! path = Some data ->
    page_content <$> records fs (lazy_load {| file_path := path |})
    = page_content <$> records fs (lazy_parse MyParser_new (Blob_from_path path ∅)).

(** A file written with CR LF line ends, and a file that is not UTF-8. *)
Definition crlf_fs : filesystem :=
  {[ "notes.txt" := "a" +:+ String CR nl +:+ "b";
     "latin1.txt" := String "233"%char nl ]}.


(** ** Further code of the notebook *)

(** [b"".join(lines)] *)
Definition join (ls : list string) : string :=
  fold_right String.append EmptyString ls.

(** The number of occurrences of the byte [x] in [s]. *)
Fixpoint count_byte (x : ascii) (s : string) : nat :=
  match s with
  | EmptyString => O
  | String c r => ((if Ascii.eqb c x then 1 else 0) + count_byte x r)%nat
  end.

(** [s] is not empty and its last byte is not a line feed: it ends
    with a line that has no terminator. *)
Fixpoint open_ended (s : string) : bool :=
  match s with
  | EmptyString => false
  | String c EmptyString => negb (is_LF c)
  | String _ r => open_ended r
  end.

(** The cell that prints the first five documents of a loader:
    [for idx, doc in enumerate(g): if idx < 5: print(doc)].  There is
    no [break]: the loop runs to the end of the generator.  The
    result is the documents printed. *)
Fixpoint print_while_idx_below_5 {A} (fs : filesystem) (g : gen A) (idx : Z)
    (st : log) : log * list A * ending :=
  match g with
  | Return => (st, [], Exhausted)
  | Raise e => (st, [], Failed e)
  | Yield doc k =>
      let '(st', printed, e) := print_while_idx_below_5 fs k (idx + 1)%Z st in
      (st', (if (idx <? 5)%Z then [doc] else []) ++ printed, e)
  | Open path k =>
      match fs !! path with
      | Some data => print_while_idx_below_5 fs (k data) idx (st ++ [path])
      | None => (st, [], Failed (FileNotFoundError path))
      end
  | Suspend k => print_while_idx_below_5 fs k idx st
  end.

Definition print_first_five `{BaseLoader L} (fs : filesystem) (loader : L)
    (st : log) : log * list Document * ending :=
  print_while_idx_below_5 fs (lazy_load loader) 0%Z st.

(** Line ends of the platform: text written with the default
    [newline=None] has every ["\n"] replaced by [os.linesep]. *)
Inductive platform : Type :=
| Posix
| Windows.

Fixpoint write_newlines (os : platform) (s : str) : bytes :=
  match s with
  | EmptyString => EmptyString
  | String c r =>
      if is_LF c then
        match os with
        | Posix => String LF (write_newlines os r)
        | Windows => String CR (String LF (write_newlines os r))
        end
      else String c (write_newlines os r)
  end.

(** The cell that creates the test file:
    [with open(path, "w", encoding="utf-8") as f: f.write(content)].
    The file is created or replaced. *)
Definition write_text (os : platform) (fs : filesystem) (path : string)
    (content : str) : filesystem :=
  <[path := write_newlines os content]> fs.

(** The content of a file, empty if there is none. *)
Definition content_of (fs : filesystem) (path : string) : bytes :=
  default EmptyString (fs !! path).


(** ** Bytes that are not text *)

(** The lines up to the first one that is not valid UTF-8. *)
Fixpoint decodable (f : list bytes) : list bytes :=
  match f with
  | [] => []
  | line :: f' => if utf8_valid line then line :: decodable f' else []
  end.

(** The line-splitting property read literally: whatever the bytes of
    an in-memory blob, the parser ends normally and has yielded one
    record per line. *)
Definition every_buffer_parses_to_its_lines : Prop :=
  forall data : bytes,
    exists docs : list Document,
      drain ∅ (lazy_parse MyParser_new (Blob_data data)) [] = ([], docs, Exhausted)
      /\ page_content <$> docs = iter_lines data.

(** [b"a\n\xe9\nc"]: the second line is Latin-1, not UTF-8. *)
Definition latin1_second_line : bytes :=
  "a" +:+ nl +:+ String "233"%char nl +:+ "c".

(** [n] copies of [s], end to end. *)
Fixpoint copies (n : nat) (s : string) : string :=
  match n with
  | O => EmptyString
  | S n' => s +:+ copies n' s
  end.

(** A file of 10001 bytes: a hundred lines of a hundred bytes each,
    and a last byte that is not UTF-8. *)
Definition hundred_lines_and_a_byte : bytes :=
  copies 100 (copies 99 "a" +:+ nl) +:+ String "255"%char EmptyString.

Definition big_fs : filesystem := {[ "big.txt" := hundred_lines_and_a_byte ]}.

(** A directory of three files, the first of them empty. *)
Definition mdx_fs : filesystem :=
  {[ "empty.mdx" := EmptyString;
     "embed_text.mdx" := "# Text embedding models" +:+ nl +:+ nl +:+ ":::info" +:+ nl;
     "index.mdx" := "# Index" +:+ nl ]}.


(** ** Generator objects

    [parser.lazy_parse(blob)] runs nothing of the body of
    [lazy_parse]: it returns a generator object, which keeps the
    locals of the body, [line_number] and the stream [f], from one
    [next] to the following.  Generator objects and streams are
    objects of the interpreter; here they are kept by address, so
    that what one call leaves behind (a stream read up to some
    position, a generator suspended or finished) is still there when
    the next call is made. *)

(** Where the body of [MyParser.lazy_parse] stands in a generator
    object: not started, suspended at the [yield] with its locals, or
    finished. *)
Inductive frame : Type :=
| NotStarted (blob : Blob)
| AtYield (blob : Blob) (f : nat) (line_number : Z)
| Finished.

(** The binary streams (for each, the bytes not read yet) and the
    generator objects, by address. *)
Record objects : Type := mkObjects {
  streams : list bytes;
  generators : list frame
}.

(** What [next] gives: a document, or the end of the iteration. *)
Inductive answer : Type :=
| Item (doc : Document)
| Stop (e : ending).

(** The call [self.lazy_parse(blob)]: a new generator object. *)
Definition MyParser_lazy_parse_call (self : MyParser) (blob : Blob) (m : objects)
    : nat * objects :=
  (length (generators m),
   mkObjects (streams m) (generators m ++ [NotStarted blob])).

(** Modelled from the spec: [blob.as_bytes_io()] as an object, a new
    stream at the start of the payload of the blob. *)
Definition as_bytes_io_stream (fs : filesystem) (blob : Blob) (m : objects)
    (st : log) : objects * log * (nat + exn) :=
  let new data :=
    mkObjects (streams m ++ [data]) (generators m) in
  match blob_payload blob with
  | InMemory data => (new data, st, inl (length (streams m)))
  | AtOrigin =>
      match source blob with
      | Some path =>
          match fs !! path with
          | Some data => (new data, st ++ [path], inl (length (streams m)))
          | None => (m, st, inr (FileNotFoundError path))
          end
      | None => (m, st, inr NotImplementedError)
      end
  end.

(** One turn of [for line in f] in the generator at address [g], up
    to the [yield]: [None] when there is no stream at [f]. *)
Definition lazy_parse_turn (g : nat) (blob : Blob) (f : nat) (line_number : Z)
    (m : objects) : option (objects * answer) :=
  match streams m !! f with
  | None => None
  | Some EmptyString =>
      Some (mkObjects (streams m) (<[g := Finished]> (generators m)),
            Stop Exhausted)
  | Some unread =>
      let (line, rest) := readline unread in
      let line_number := (line_number + 1)%Z in
      match Document_of_bytes line
              {[ "line_number" := VInt line_number;
                 "source" := of_optional (source blob) ]} with
      | Some doc =>
          Some (mkObjects (<[f := rest]> (streams m))
                  (<[g := AtYield blob f line_number]> (generators m)),
                Item doc)
      | None =>
          Some (mkObjects (<[f := rest]> (streams m))
                  (<[g := Finished]> (generators m)),
                Stop (Failed ValidationError))
      end
  end.

(** [next(g)] for the generator object at address [g]: the body of
    [lazy_parse] from where it stands to the next [yield] or to its
    end.  [None] when there is no generator at [g]. *)
Definition MyParser_lazy_parse_next (fs : filesystem) (g : nat) (m : objects)
    (st : log) : option (objects * log * answer) :=
  match generators m !! g with
  | None => None
  | Some (NotStarted blob) =>
      let line_number := 0%Z in
      match as_bytes_io_stream fs blob m st with
      | (m', st', inl f) =>
          match lazy_parse_turn g blob f line_number m' with
          | Some (m'', a) => Some (m'', st', a)
          | None => None
          end
      | (m', st', inr e) =>
          Some (mkObjects (streams m') (<[g := Finished]> (generators m')),
                st', Stop (Failed e))
      end
  | Some (AtYield blob f line_number) =>
      match lazy_parse_turn g blob f line_number m with
      | Some (m', a) => Some (m', st, a)
      | None => None
      end
  | Some Finished => Some (m, st, Stop Exhausted)
  end.

(** [list(g)]: [next(g)] until the iteration stops. *)
Fixpoint collect (fs : filesystem) (fuel : nat) (g : nat) (m : objects)
    (st : log) : option (objects * log * list Document * ending) :=
  match fuel with
  | O => None
  | S fuel' =>
      match MyParser_lazy_parse_next fs g m st with
      | None => None
      | Some (m', st', Stop e) => Some (m', st', [], e)
      | Some (m', st', Item doc) =>
          match collect fs fuel' g m' st' with
          | Some (m'', st'', docs, e) => Some (m'', st'', doc :: docs, e)
          | None => None
          end
      end
  end.

(** [list(self.lazy_parse(blob))] *)
Definition list_lazy_parse (fs : filesystem) (fuel : nat) (self : MyParser)
    (blob : Blob) (m : objects) (st : log)
    : option (objects * log * list Document * ending) :=
  let (g, m') := MyParser_lazy_parse_call self blob m in
  collect fs fuel g m' st.

(** A pass that the consumer abandons: [self.lazy_parse(blob)], then
    [next] at most [n] times, the generator left as it stands. *)
Fixpoint advance (fs : filesystem) (n : nat) (g : nat) (m : objects) (st : log)
    : objects * log :=
  match n with
  | O => (m, st)
  | S n' =>
      match MyParser_lazy_parse_next fs g m st with
      | Some (m', st', Item _) => advance fs n' g m' st'
      | Some (m', st', Stop _) => (m', st')
      | None => (m, st)
      end
  end.

Definition abandoned_lazy_parse (fs : filesystem) (n : nat) (self : MyParser)
    (blob : Blob) (m : objects) (st : log) : objects * log :=
  let (g, m') := MyParser_lazy_parse_call self blob m in
  advance fs n g m' st.
(** ** Lines *)

Lemma iter_lines_nonempty c r : iter_lines (String c r) <> [].
Proof.
  simpl. destruct (is_LF c); [discriminate|].
  destruct (iter_lines r); discriminate.
Qed.

(** [iter_lines] is the iteration of [readline] up to the empty line. *)
Lemma iter_lines_readline (s : bytes) :
  iter_lines s =
    match s with
    | EmptyString => []
    | _ => let (l, r) := readline s in l :: iter_lines r
    end.
Proof.
  induction s as [|c r IH]; [reflexivity|].
  cbn [iter_lines readline]. destruct (is_LF c); [reflexivity|].
  rewrite IH. destruct r as [|c' r']; [reflexivity|].
  destruct (readline (String c' r')) as [l r'']. reflexivity.
Qed.

Lemma readline_nonempty c r : fst (readline (String c r)) <> EmptyString.
Proof.
  simpl. destruct (is_LF c); [discriminate|].
  destruct (readline r). discriminate.
Qed.

Lemma is_LF_true c : is_LF c = true -> c = LF.
Proof. unfold is_LF. intros H. by apply Ascii.eqb_eq in H. Qed.

(** ** Consumers: the log only grows, and nothing depends on it *)

Section ConsumerFacts.
Context {A : Type}.
Variable fs : filesystem.

Lemma drain_log (g : gen A) (st : log) :
  drain fs g st = (st ++ resolved fs g, records fs g, outcome fs g).
Proof.
  unfold resolved, records, outcome.
  revert st. induction g as [|e|a k IH|path k IH|k IH]; intros st; simpl.
  - by rewrite app_nil_r.
  - by rewrite app_nil_r.
  - rewrite (IH st). by destruct (drain fs k []) as [[l ds] e].
  - destruct (fs !! path) as [data|]; simpl; [|by rewrite app_nil_r].
    rewrite (IH data (st ++ [path])), (IH data [path]). simpl.
    by rewrite <- app_assoc.
  - apply IH.
Qed.

Lemma take_O (g : gen A) (st : log) : take fs g 0 st = (st, [], None).
Proof. by destruct g. Qed.

Lemma take_log (g : gen A) (n : nat) (st : log) :
  take fs g n st =
    (st ++ fst (fst (take fs g n [])), snd (fst (take fs g n [])),
     snd (take fs g n [])).
Proof.
  revert n st. induction g as [|e|a k IH|path k IH|k IH];
    intros [|n] st; simpl; try by rewrite app_nil_r.
  - rewrite (IH n st). by destruct (take fs k n []) as [[l ds] e].
  - destruct (fs !! path) as [data|]; simpl; [|by rewrite app_nil_r].
    rewrite (IH data (S n) (st ++ [path])), (IH data (S n) [path]). simpl.
    by rewrite <- app_assoc.
  - apply (IH (S n)).
Qed.

Lemma records_Yield a (k : gen A) : records fs (Yield a k) = a :: records fs k.
Proof. unfold records. simpl. by destruct (drain fs k []) as [[l ds] e]. Qed.

Lemma outcome_Yield a (k : gen A) : outcome fs (Yield a k) = outcome fs k.
Proof. unfold outcome. simpl. by destruct (drain fs k []) as [[l ds] e]. Qed.

Lemma resolved_Yield a (k : gen A) : resolved fs (Yield a k) = resolved fs k.
Proof. unfold resolved. simpl. by destruct (drain fs k []) as [[l ds] e]. Qed.

Lemma records_Open path (k : bytes -> gen A) :
  records fs (Open path k) =
    match fs !! path with Some data => records fs (k data) | None => [] end.
Proof.
  unfold records at 1. simpl. destruct (fs !! path); [|done].
  by rewrite drain_log.
Qed.

Lemma outcome_Open path (k : bytes -> gen A) :
  outcome fs (Open path k) =
    match fs !! path with
    | Some data => outcome fs (k data)
    | None => Failed (FileNotFoundError path)
    end.
Proof.
  unfold outcome at 1. simpl. destruct (fs !! path); [|done].
  by rewrite drain_log.
Qed.

Lemma resolved_Open path (k : bytes -> gen A) :
  resolved fs (Open path k) =
    match fs !! path with
    | Some data => path :: resolved fs (k data)
    | None => []
    end.
Proof.
  unfold resolved at 1. simpl. destruct (fs !! path); [|done].
  by rewrite drain_log.
Qed.

(** [drain] is [next], again and again. *)
Lemma drain_next (g : gen A) (st : log) :
  drain fs g st =
    match next fs g st with
    | (st', Yielded a k) =>
        let '(st'', l, e) := drain fs k st' in (st'', a :: l, e)
    | (st', StopIteration) => (st', [], Exhausted)
    | (st', Raised e) => (st', [], Failed e)
    end.
Proof.
  revert st. induction g as [|e|a k IH|path k IH|k IH]; intros st; simpl;
    try done.
  destruct (fs !! path); [apply IH|done].
Qed.

(** A consumer that stops after [n] items has seen the first [n]
    items of the full sequence. *)
Lemma take_records (g : gen A) (n : nat) (st : log) :
  snd (fst (take fs g n st)) = firstn n (records fs g).
Proof.
  revert n st. induction g as [|e|a k IH|path k IH|k IH];
    intros [|n] st; simpl; try done.
  - rewrite records_Yield. simpl. rewrite <- (IH n st).
    by destruct (take fs k n st) as [[l ds] e].
  - rewrite records_Open. destruct (fs !! path); [|done]. apply (IH _ (S n)).
Qed.
End ConsumerFacts.

(** ** Composition of generators *)

Lemma chain_all_exhausted {A} (parts : list (list A * ending)) (last : ending) :
  Forall (fun p => snd p = Exhausted) parts ->
  chain parts last = (concat (map fst parts), last).
Proof.
  induction 1 as [|[l e] t He _ IH]; [reflexivity|].
  simpl in *. subst e. by rewrite IH.
Qed.

Lemma chain_first_failure {A} (good more : list (list A * ending))
    (l : list A) (e : exn) (last : ending) :
  Forall (fun p => snd p = Exhausted) good ->
  chain (good ++ (l, Failed e) :: more) last =
    (concat (map fst good) ++ l, Failed e).
Proof.
  induction 1 as [|[l0 e0] t He _ IH]; [reflexivity|].
  simpl in *. subst e0. rewrite IH. by rewrite app_assoc.
Qed.

Section Composition.
Context {A : Type}.
Variable fs : filesystem.

Lemma drain_yield_from (g rest : gen A) (st : log) :
  drain fs (yield_from g rest) st =
    match drain fs g st with
    | (st', l, Exhausted) =>
        let '(st'', l', e) := drain fs rest st' in (st'', l ++ l', e)
    | (st', l, Failed e) => (st', l, Failed e)
    end.
Proof.
  revert st. induction g as [|e|a k IH|path k IH|k IH]; intros st; simpl.
  - by destruct (drain fs rest st) as [[st' l] e].
  - done.
  - rewrite IH. destruct (drain fs k st) as [[st' l] [|e]]; [|done].
    by destruct (drain fs rest st') as [[st'' l'] e'].
  - destruct (fs !! path); [apply IH|done].
  - apply IH.
Qed.

Lemma records_yield_from (g rest : gen A) :
  records fs (yield_from g rest) =
    records fs g ++
    match outcome fs g with Exhausted => records fs rest | Failed _ => [] end.
Proof.
  unfold records at 1. rewrite drain_yield_from, (drain_log fs g).
  destruct (outcome fs g); simpl; [|by rewrite app_nil_r].
  by rewrite drain_log.
Qed.

Lemma outcome_yield_from (g rest : gen A) :
  outcome fs (yield_from g rest) =
    match outcome fs g with Exhausted => outcome fs rest | Failed e => Failed e end.
Proof.
  unfold outcome at 1. rewrite drain_yield_from, (drain_log fs g).
  destruct (outcome fs g); simpl; [|done].
  by rewrite drain_log.
Qed.


(** The records and the ending of a [for] loop over a generator. *)
Lemma for_each_chain {B} (s : gen B) (body : B -> gen A) :
  (records fs (for_each s body), outcome fs (for_each s body)) =
    chain (map (fun b => (records fs (body b), outcome fs (body b)))
             (records fs s))
          (outcome fs s).
Proof.
  induction s as [|e|b k IH|path k IH|k IH]; simpl.
  - done.
  - done.
  - rewrite records_yield_from, outcome_yield_from, records_Yield, outcome_Yield.
    simpl. destruct (outcome fs (body b)); [|by rewrite app_nil_r].
    rewrite <- IH. done.
  - rewrite !records_Open, !outcome_Open.
    destruct (fs !! path); [apply IH|done].
  - apply IH.
Qed.


(** A consumer learns how the generator ends only by asking for more
    than it has. *)
Lemma take_ended (g : gen A) (n : nat) (st : log) (e : ending) :
  snd (take fs g n st) = Some e ->
  snd (fst (take fs g n st)) = records fs g
  /\ outcome fs g = e
  /\ (length (records fs g) < n)%nat.
Proof.
  revert n st. induction g as [|e0|a k IH|path k IH|k IH];
    intros [|n] st; simpl; try done.
  - intros [= <-]. repeat split. unfold records. simpl. lia.
  - intros [= <-]. repeat split. unfold records. simpl. lia.
  - rewrite records_Yield, outcome_Yield. specialize (IH n st).
    destruct (take fs k n st) as [[st' l] e']. simpl in *.
    intros He. destruct (IH He) as (-> & <- & Hlt). repeat split. simpl. lia.
  - rewrite records_Open, outcome_Open. destruct (fs !! path).
    + apply (IH _ (S n)).
    + intros [= <-]. repeat split. simpl. lia.
  - apply (IH (S n)).
Qed.

(** What a consumer that stops early has made the generator read is
    an initial part of what the full iteration reads. *)
Lemma take_resolved_prefix (g : gen A) (n : nat) :
  fst (fst (take fs g n [])) `prefix_of` resolved fs g.
Proof.
  revert n. induction g as [|e|a k IH|path k IH|k IH];
    intros [|n]; simpl; try by apply prefix_nil.
  - rewrite resolved_Yield. specialize (IH n).
    by destruct (take fs k n []) as [[st' l] e'].
  - rewrite resolved_Open. destruct (fs !! path); [|done].
    rewrite take_log. simpl. apply prefix_cons, (IH _ (S n)).
  - apply (IH (S n)).
Qed.
End Composition.

(** ** The lines of a buffer *)

Lemma iter_lines_LF (r : bytes) :
  iter_lines (String LF r) = String LF EmptyString :: iter_lines r.
Proof. reflexivity. Qed.

Lemma iter_lines_partial (body : bytes) :
  body <> EmptyString -> free_of LF body = true -> iter_lines body = [body].
Proof.
  induction body as [|c r IH]; [done|]. intros _. cbn [free_of iter_lines].
  fold (is_LF c). destruct (is_LF c); [done|]. simpl. intros Hr.
  destruct r as [|c' r']; [done|]. by rewrite IH.
Qed.

Lemma iter_lines_terminated (body rest : bytes) :
  free_of LF body = true ->
  iter_lines (body +:+ String LF rest) =
    (body +:+ String LF EmptyString) :: iter_lines rest.
Proof.
  induction body as [|c r IH]; [done|]. cbn [free_of].
  fold (is_LF c). intros H.
  change (String c r +:+ String LF rest) with (String c (r +:+ String LF rest)).
  change (String c r +:+ String LF EmptyString)
    with (String c (r +:+ String LF EmptyString)).
  cbn [iter_lines]. destruct (is_LF c); [done|]. simpl in H. by rewrite IH.
Qed.

(** [iter_lines] cuts a buffer into its lines... *)
Lemma iter_lines_sound (data : bytes) : lines_of data (iter_lines data).
Proof.
  induction data as [|c r IH]; [constructor|].
  cbn [iter_lines]. destruct (is_LF c) eqn:Hc.
  - apply is_LF_true in Hc. subst c.
    by apply (lines_terminated EmptyString r).
  - inversion IH as [Hr Hl|body Hne Hfree Hb Hl|body rest ls Hfree Hrest Hb Hl].
    + apply lines_partial; [done|]. simpl. fold (is_LF c). by rewrite Hc.
    + apply lines_partial; [done|]. simpl. fold (is_LF c). by rewrite Hc.
    + apply (lines_terminated (String c body) rest ls); [|done].
      simpl. fold (is_LF c). by rewrite Hc.
Qed.

(** ... and it is the only way to do so. *)
Lemma iter_lines_complete (data : bytes) (ls : list bytes) :
  lines_of data ls -> ls = iter_lines data.
Proof.
  induction 1 as [|body Hne Hfree|body rest ls Hfree _ IH].
  - done.
  - by rewrite iter_lines_partial.
  - by rewrite iter_lines_terminated, IH.
Qed.

Lemma universal_newlines_id (s : str) :
  free_of CR s = true -> universal_newlines s = s.
Proof.
  induction s as [|c r IH]; [done|]. cbn [free_of universal_newlines].
  fold (is_CR c). destruct (is_CR c); [done|]. simpl. intros H. by rewrite IH.
Qed.

(** ** Well-formed UTF-8 *)

Lemma append_cons (c : ascii) (r b : string) :
  String c r +:+ b = String c (r +:+ b).
Proof. reflexivity. Qed.

Lemma byte_in_disjoint (c : ascii) (lo hi lo' hi' : N) :
  (hi < lo')%N -> byte_in lo hi c = true -> byte_in lo' hi' c = false.
Proof.
  unfold byte_in. intros Hlt [H1 H2]%andb_prop.
  apply N.leb_le in H2. apply andb_false_iff. left. apply N.leb_gt. lia.
Qed.

Lemma byte_in_weaken (c : ascii) (lo hi lo' hi' : N) :
  (lo' <= lo)%N -> (hi <= hi')%N -> byte_in lo hi c = true -> byte_in lo' hi' c = true.
Proof.
  unfold byte_in. intros Hlo Hhi [H1 H2]%andb_prop.
  apply N.leb_le in H1, H2. apply andb_true_iff. split; apply N.leb_le; lia.
Qed.

(** The second byte of a sequence of three or four is a continuation
    byte, whatever the first byte allows. *)
Lemma second_of_3_tail (b0 b1 : ascii) :
  (if byte_in 224 224 b0 then byte_in 160 191 b1
   else if byte_in 237 237 b0 then byte_in 128 159 b1 else utf8_tail b1) = true ->
  utf8_tail b1 = true.
Proof.
  unfold utf8_tail. destruct (byte_in 224 224 b0); [|destruct (byte_in 237 237 b0)];
    [apply byte_in_weaken; lia..|done].
Qed.

Lemma second_of_4_tail (b0 b1 : ascii) :
  (if byte_in 240 240 b0 then byte_in 144 191 b1
   else if byte_in 244 244 b0 then byte_in 128 143 b1 else utf8_tail b1) = true ->
  utf8_tail b1 = true.
Proof.
  unfold utf8_tail. destruct (byte_in 240 240 b0); [|destruct (byte_in 244 244 b0)];
    [apply byte_in_weaken; lia..|done].
Qed.

Lemma tail_not_ascii (c : ascii) : utf8_tail c = true -> byte_in 0 127 c = false.
Proof.
  unfold utf8_tail. intros H.
  destruct (byte_in 0 127 c) eqn:Ha; [|done].
  by rewrite (byte_in_disjoint c 0 127 128 191) in H.
Qed.

(** A well-formed text followed by more bytes is well formed exactly
    when those bytes are. *)
Lemma utf8_valid_app (a b : bytes) :
  utf8_valid a = true -> utf8_valid (a +:+ b) = utf8_valid b.
Proof.
  assert (H : forall (n : nat) (a : bytes), (String.length a <= n)%nat ->
            utf8_valid a = true -> utf8_valid (a +:+ b) = utf8_valid b).
  { clear a. induction n as [|n IH]; intros [|b0 r0] Hlen Hv; try done.
    { simpl in Hlen. lia. }
    cbn [String.length] in Hlen. cbn [utf8_valid] in Hv.
    destruct (byte_in 0 127 b0) eqn:A0.
    { rewrite append_cons. cbn [utf8_valid]. rewrite A0. apply IH; [lia|done]. }
    destruct r0 as [|b1 r1]; [done|]. cbn [String.length] in Hlen.
    destruct (byte_in 194 223 b0) eqn:A1.
    { apply andb_prop in Hv as [T1 V]. rewrite !append_cons. cbn [utf8_valid].
      rewrite A0, A1, T1, andb_true_l. apply IH; [lia|done]. }
    destruct r1 as [|b2 r2]; [done|]. cbn [String.length] in Hlen.
    destruct (byte_in 224 239 b0) eqn:A2.
    { apply andb_prop in Hv as [Hv V]. apply andb_prop in Hv as [C1 T2].
      rewrite !append_cons. cbn [utf8_valid].
      rewrite A0, A1, A2, C1, T2, !andb_true_l. apply IH; [lia|done]. }
    destruct r2 as [|b3 r3]; [done|]. cbn [String.length] in Hlen.
    apply andb_prop in Hv as [Hv V]. apply andb_prop in Hv as [Hv T3].
    apply andb_prop in Hv as [Hv T2]. apply andb_prop in Hv as [B0 C1].
    rewrite !append_cons. cbn [utf8_valid].
    rewrite A0, A1, A2, B0, C1, T2, T3, !andb_true_l. apply IH; [lia|done]. }
  by apply (H (String.length a)).
Qed.

Lemma append_nil_l (s : string) : EmptyString +:+ s = s.
Proof. reflexivity. Qed.

(** An ASCII byte is never inside a longer sequence: what comes before
    it in a well-formed text is well formed. *)
Lemma utf8_valid_before_ascii (c : ascii) (x y : bytes) :
  byte_in 0 127 c = true ->
  utf8_valid (x +:+ String c y) = true -> utf8_valid x = true.
Proof.
  intros Hc.
  assert (Hno : utf8_tail c = true -> False).
  { intros Ht. apply tail_not_ascii in Ht. congruence. }
  assert (H : forall (n : nat) (x : bytes), (String.length x <= n)%nat ->
            utf8_valid (x +:+ String c y) = true -> utf8_valid x = true).
  { clear x. induction n as [|n IH]; intros [|b0 r0] Hlen Hv; try done.
    { simpl in Hlen. lia. }
    cbn [String.length] in Hlen. rewrite append_cons in Hv.
    cbn [utf8_valid] in Hv |- *.
    destruct (byte_in 0 127 b0) eqn:A0; [apply IH; [lia|done]|].
    destruct r0 as [|b1 r1].
    { exfalso. rewrite append_nil_l in Hv.
      destruct (byte_in 194 223 b0).
      { apply andb_prop in Hv as [T _]. auto. }
      destruct y as [|b2 r2]; [done|].
      destruct (byte_in 224 239 b0).
      { apply andb_prop in Hv as [Hv _]. apply andb_prop in Hv as [C _].
        apply second_of_3_tail in C. auto. }
      destruct r2 as [|b3 r3]; [done|].
      apply andb_prop in Hv as [Hv _]. apply andb_prop in Hv as [Hv _].
      apply andb_prop in Hv as [Hv _]. apply andb_prop in Hv as [_ C].
      apply second_of_4_tail in C. auto. }
    cbn [String.length] in Hlen. rewrite append_cons in Hv.
    destruct (byte_in 194 223 b0) eqn:A1.
    { apply andb_prop in Hv as [T1 V]. rewrite T1, andb_true_l.
      apply IH; [lia|done]. }
    destruct r1 as [|b2 r2].
    { exfalso. rewrite append_nil_l in Hv.
      destruct (byte_in 224 239 b0).
      { apply andb_prop in Hv as [Hv _]. apply andb_prop in Hv as [_ T]. auto. }
      destruct y as [|b3 r3]; [done|].
      apply andb_prop in Hv as [Hv _]. apply andb_prop in Hv as [Hv _].
      apply andb_prop in Hv as [_ T]. auto. }
    cbn [String.length] in Hlen. rewrite append_cons in Hv.
    destruct (byte_in 224 239 b0) eqn:A2.
    { apply andb_prop in Hv as [Hv V]. apply andb_prop in Hv as [C1 T2].
      rewrite C1, T2, !andb_true_l. apply IH; [lia|done]. }
    destruct r2 as [|b3 r3].
    { exfalso. rewrite append_nil_l in Hv.
      apply andb_prop in Hv as [Hv _]. apply andb_prop in Hv as [_ T]. auto. }
    cbn [String.length] in Hlen. rewrite append_cons in Hv.
    apply andb_prop in Hv as [Hv V]. apply andb_prop in Hv as [Hv T3].
    apply andb_prop in Hv as [Hv T2]. apply andb_prop in Hv as [B0 C1].
    rewrite B0, C1, T2, T3, !andb_true_l. apply IH; [lia|done]. }
  by apply (H (String.length x)).
Qed.

Lemma utf8_valid_split_LF (body rest : bytes) :
  utf8_valid (body +:+ String LF rest) = true ->
  utf8_valid (body +:+ String LF EmptyString) = true /\ utf8_valid rest = true.
Proof.
  intros Hv.
  assert (Hb : utf8_valid body = true)
    by (by apply (utf8_valid_before_ascii LF body rest)).
  rewrite utf8_valid_app in Hv by done. by rewrite utf8_valid_app.
Qed.

(** The lines of a well-formed text are well formed. *)
Lemma utf8_valid_lines (data : bytes) (ls : list bytes) :
  lines_of data ls -> utf8_valid data = true ->
  Forall (fun l => utf8_valid l = true) ls.
Proof.
  induction 1 as [|body Hne Hfree|body rest ls Hfree _ IH]; intros Hv.
  - constructor.
  - by repeat constructor.
  - apply utf8_valid_split_LF in Hv as [Hb Hr]. constructor; [done|by apply IH].
Qed.

Lemma utf8_valid_iter_lines (data : bytes) :
  utf8_valid data = true -> Forall (fun l => utf8_valid l = true) (iter_lines data).
Proof. apply utf8_valid_lines, iter_lines_sound. Qed.
(** ** Reading a text file chunk by chunk *)

Lemma append_assoc (a b c : string) : (a +:+ b) +:+ c = a +:+ (b +:+ c).
Proof. induction a as [|x a IH]; [done|]. by rewrite !append_cons, IH. Qed.

Lemma append_nil_r (s : string) : s +:+ EmptyString = s.
Proof. induction s as [|x s IH]; [done|]. by rewrite append_cons, IH. Qed.

(** On the beginning of a well-formed text the incremental decoder does
    not fail: it decodes the complete sequences and keeps back the
    beginning of the one that is cut. *)
Lemma utf8_chunk_prefix (x y : bytes) :
  utf8_valid (x +:+ y) = true ->
  exists (d : str) (p : bytes),
    utf8_chunk x = Some (d, p) /\ d +:+ p = x /\ utf8_valid (p +:+ y) = true.
Proof.
  assert (H : forall (n : nat) (x : bytes), (String.length x <= n)%nat ->
            utf8_valid (x +:+ y) = true ->
            exists (d : str) (p : bytes),
              utf8_chunk x = Some (d, p) /\ d +:+ p = x
              /\ utf8_valid (p +:+ y) = true).
  { clear x. induction n as [|n IH]; intros [|b0 r0] Hlen Hv0.
    - by exists EmptyString, EmptyString.
    - simpl in Hlen. lia.
    - by exists EmptyString, EmptyString.
    - cbn [String.length] in Hlen. pose proof Hv0 as Hv.
      rewrite append_cons in Hv. cbn [utf8_valid] in Hv. cbn [utf8_chunk].
      destruct (byte_in 0 127 b0) eqn:A0.
      { destruct (IH r0 ltac:(lia) Hv) as (d & p & Hd & Hdp & Hp).
        rewrite Hd. exists (String b0 d), p. cbn [decoded_more].
        repeat split; [|done]. by rewrite !append_cons, Hdp. }
      destruct r0 as [|b1 r1].
      { rewrite append_nil_l in Hv. destruct y as [|b1 y1]; [done|].
        assert (Hlead : (if byte_in 194 223 b0 then true
                         else if byte_in 224 239 b0 then true
                         else byte_in 240 244 b0) = true).
        { destruct (byte_in 194 223 b0); [done|].
          destruct y1 as [|b2 y2]; [done|].
          destruct (byte_in 224 239 b0); [done|].
          destruct y2 as [|b3 y3]; [done|].
          apply andb_prop in Hv as [Hv _]. apply andb_prop in Hv as [Hv _].
          apply andb_prop in Hv as [Hv _]. by apply andb_prop in Hv as [B0 _]. }
        exists EmptyString, (String b0 EmptyString).
        split; [|by split].
        destruct (byte_in 194 223 b0); [done|].
        destruct (byte_in 224 239 b0); [done|]. by rewrite Hlead. }
      cbn [String.length] in Hlen. rewrite append_cons in Hv.
      destruct (byte_in 194 223 b0) eqn:A1.
      { apply andb_prop in Hv as [T1 V]. rewrite T1.
        destruct (IH r1 ltac:(lia) V) as (d & p & Hd & Hdp & Hp).
        rewrite Hd. exists (String b0 (String b1 d)), p. cbn [decoded_more].
        repeat split; [|done]. by rewrite !append_cons, Hdp. }
      destruct (byte_in 224 239 b0) eqn:A2.
      { destruct r1 as [|b2 r2].
        - rewrite append_nil_l in Hv. destruct y as [|b2 y2]; [done|].
          apply andb_prop in Hv as [Hv _]. apply andb_prop in Hv as [C1 _].
          rewrite C1. exists EmptyString, (String b0 (String b1 EmptyString)).
          by repeat split.
        - cbn [String.length] in Hlen. rewrite append_cons in Hv.
          apply andb_prop in Hv as [Hv V]. apply andb_prop in Hv as [C1 T2].
          rewrite C1, T2.
          destruct (IH r2 ltac:(lia) V) as (d & p & Hd & Hdp & Hp).
          rewrite Hd. exists (String b0 (String b1 (String b2 d))), p.
          cbn [decoded_more]. repeat split; [|done]. by rewrite !append_cons, Hdp. }
      destruct r1 as [|b2 r2].
      { rewrite append_nil_l in Hv. destruct y as [|b2 [|b3 y3]]; [done..|].
        apply andb_prop in Hv as [Hv _]. apply andb_prop in Hv as [Hv _].
        apply andb_prop in Hv as [Hv _]. apply andb_prop in Hv as [B0 C1].
        rewrite B0, C1. exists EmptyString, (String b0 (String b1 EmptyString)).
        by repeat split. }
      rewrite append_cons in Hv. destruct r2 as [|b3 r3].
      { rewrite append_nil_l in Hv. destruct y as [|b3 y3]; [done|].
        apply andb_prop in Hv as [Hv _]. apply andb_prop in Hv as [Hv _].
        apply andb_prop in Hv as [Hv T2]. apply andb_prop in Hv as [B0 C1].
        rewrite B0, C1, T2.
        exists EmptyString, (String b0 (String b1 (String b2 EmptyString))).
        by repeat split. }
      cbn [String.length] in Hlen. rewrite append_cons in Hv.
      apply andb_prop in Hv as [Hv V]. apply andb_prop in Hv as [Hv T3].
      apply andb_prop in Hv as [Hv T2]. apply andb_prop in Hv as [B0 C1].
      rewrite B0, C1, T2, T3.
      destruct (IH r3 ltac:(lia) V) as (d & p & Hd & Hdp & Hp).
      rewrite Hd. exists (String b0 (String b1 (String b2 (String b3 d)))), p.
      cbn [decoded_more]. repeat split; [|done]. by rewrite !append_cons, Hdp. }
  by apply (H (String.length x)).
Qed.

Lemma join_cons (x : string) (l : list string) : join (x :: l) = x +:+ join l.
Proof. reflexivity. Qed.

Lemma cut_join (n room : nat) (s : bytes) :
  fst (cut n room s) +:+ join (snd (cut n room s)) = s.
Proof.
  revert room. induction s as [|c r IH]; intros room; [done|].
  cbn [cut]. destruct room as [|room].
  - specialize (IH (n - 1)%nat). destruct (cut n (n - 1) r) as [cur rest].
    cbn [fst snd] in *. by rewrite join_cons, append_nil_l, append_cons, IH.
  - specialize (IH room). destruct (cut n room r) as [cur rest].
    cbn [fst snd] in *. by rewrite append_cons, IH.
Qed.

(** The chunks of a file, end to end, are the file. *)
Lemma join_chunks (n : nat) (s : bytes) : join (chunks n s) = s.
Proof.
  unfold chunks. pose proof (cut_join n n s) as H.
  destruct (cut n n s) as [cur rest]. cbn [fst snd] in H. by destruct cur.
Qed.

(** The decoder goes through a well-formed file without failing, and
    the pieces it decodes are the file. *)
Lemma utf8_pieces_valid (cs : list bytes) (pending : bytes) :
  utf8_valid (pending +:+ join cs) = true ->
  exists ds : list str,
    utf8_pieces pending cs = (ds, true) /\ join ds = pending +:+ join cs.
Proof.
  revert pending. induction cs as [|c cs IH]; intros pending Hv.
  - change (join []) with EmptyString in *. rewrite append_nil_r in Hv.
    cbn [utf8_pieces]. rewrite Hv. exists [pending].
    by rewrite join_cons.
  - rewrite join_cons, <- append_assoc in Hv.
    destruct (utf8_chunk_prefix _ _ Hv) as (d & p & Hd & Hdp & Hp).
    destruct (IH p Hp) as (ds & Hds & Hj).
    cbn [utf8_pieces]. rewrite Hd, Hds. exists (d :: ds). split; [done|].
    by rewrite !join_cons, Hj, <- !append_assoc, Hdp.
Qed.

Lemma is_CR_true (c : ascii) : is_CR c = true -> c = CR.
Proof. unfold is_CR. intros H. by apply Ascii.eqb_eq in H. Qed.

Lemma strip_cr_snd_cons (c : ascii) (r : str) :
  r <> EmptyString -> snd (strip_cr (String c r)) = snd (strip_cr r).
Proof.
  destruct r as [|c' r']; [done|]. intros _.
  cbn [strip_cr]. by destruct (match r' with
                               | EmptyString => _
                               | String _ _ => _
                               end).
Qed.

Lemma strip_cr_snd_tail (c : ascii) (r : str) :
  snd (strip_cr (String c r)) = false -> snd (strip_cr r) = false.
Proof.
  destruct r as [|c' r']; [done|]. by rewrite strip_cr_snd_cons.
Qed.

Lemma universal_newlines_other (c : ascii) (t : str) :
  is_CR c = false ->
  universal_newlines (String c t) = String c (universal_newlines t).
Proof. intros Hc. cbn [universal_newlines]. by rewrite Hc. Qed.

Lemma universal_newlines_CR_LF (t : str) :
  universal_newlines (String CR (String LF t)) = String LF (universal_newlines t).
Proof. reflexivity. Qed.

Lemma universal_newlines_CR_other (c : ascii) (t : str) :
  is_LF c = false ->
  universal_newlines (String CR (String c t))
  = String LF (universal_newlines (String c t)).
Proof.
  intros Hc.
  change (universal_newlines (String CR (String c t)))
    with (if is_LF c then String LF (universal_newlines t)
          else String LF (universal_newlines (String c t))).
  by rewrite Hc.
Qed.

(** Translating the line ends of a text in two parts gives the same as
    translating the whole, unless the cut separates a [CR] from a
    [LF]. *)
Lemma universal_newlines_app (a b : str) :
  snd (strip_cr a) = false \/ (forall b', b <> String LF b') ->
  universal_newlines (a +:+ b) = universal_newlines a +:+ universal_newlines b.
Proof.
  assert (H : forall (n : nat) (a : str), (String.length a <= n)%nat ->
            snd (strip_cr a) = false \/ (forall b', b <> String LF b') ->
            universal_newlines (a +:+ b)
            = universal_newlines a +:+ universal_newlines b).
  { clear a. induction n as [|n IH]; intros [|c r] Hlen Hcut; try done.
    { simpl in Hlen. lia. }
    cbn [String.length] in Hlen.
    assert (Hr : snd (strip_cr r) = false \/ (forall b', b <> String LF b')).
    { destruct Hcut as [Hcut|Hcut]; [left|by right]. by apply strip_cr_snd_tail in Hcut. }
    rewrite append_cons. destruct (is_CR c) eqn:Hc.
    - apply is_CR_true in Hc. subst c. destruct r as [|c' r''].
      + rewrite append_nil_l.
        destruct Hcut as [Hcut|Hcut]; [by simpl in Hcut|].
        destruct b as [|c' b']; [done|].
        destruct (is_LF c') eqn:Hlf.
        * apply is_LF_true in Hlf. subst c'. by destruct (Hcut b').
        * by rewrite universal_newlines_CR_other.
      + rewrite append_cons. cbn [String.length] in Hlen.
        destruct (is_LF c') eqn:Hlf.
        * apply is_LF_true in Hlf. subst c'.
          rewrite !universal_newlines_CR_LF, append_cons. f_equal.
          apply IH; [lia|].
          destruct Hr as [Hr|Hr]; [left|by right]. by apply strip_cr_snd_tail in Hr.
        * rewrite !universal_newlines_CR_other, append_cons by done. f_equal.
          rewrite <- append_cons. apply IH; [simpl; lia|done].
    - rewrite !universal_newlines_other, append_cons by done. f_equal.
      apply IH; [lia|done]. }
  by apply (H (String.length a)).
Qed.

Lemma strip_cr_spec (s : str) :
  s = fst (strip_cr s)
      +:+ (if snd (strip_cr s) then String CR EmptyString else EmptyString)
  /\ (snd (strip_cr s) = false -> snd (strip_cr (fst (strip_cr s))) = false).
Proof.
  induction s as [|c r IH]; [done|]. destruct r as [|c' r'].
  - cbn [strip_cr]. destruct (is_CR c) eqn:Hc.
    + apply is_CR_true in Hc. by subst c.
    + simpl. by rewrite Hc.
  - change (strip_cr (String c (String c' r')))
      with (let (r0, cr) := strip_cr (String c' r') in (String c r0, cr)).
    destruct (strip_cr (String c' r')) as [r0 cr]. simpl in IH. cbn [fst snd].
    destruct IH as [IH1 IH2]. split; [by rewrite append_cons, <- IH1|].
    intros Hcr. specialize (IH2 Hcr). destruct r0 as [|c0 r0'].
    + subst cr. simpl in IH1. discriminate IH1.
    + by rewrite strip_cr_snd_cons.
Qed.

Lemma universal_newlines_strip (s z : str) :
  universal_newlines (s +:+ z)
  = universal_newlines (fst (strip_cr s))
    +:+ universal_newlines
          ((if snd (strip_cr s) then String CR EmptyString else EmptyString) +:+ z).
Proof.
  destruct (strip_cr_spec s) as [Hs Hkeep].
  rewrite Hs at 1. rewrite append_assoc.
  apply universal_newlines_app. destruct (snd (strip_cr s)).
  - right. intros b'. rewrite append_cons. discriminate.
  - left. by apply Hkeep.
Qed.

(** The pieces the newline decoder delivers up to the end of a file
    are, end to end, the translated text. *)
Lemma newline_pieces_join (ds : list str) (pendingcr : bool) :
  join (newline_pieces pendingcr ds true)
  = universal_newlines
      ((if pendingcr then String CR EmptyString else EmptyString) +:+ join ds).
Proof.
  revert pendingcr. induction ds as [|d ds IH]; intros pendingcr.
  - cbn [newline_pieces]. change (join []) with EmptyString.
    by rewrite join_cons, !append_nil_r.
  - cbn [newline_pieces]. destruct d as [|c d'].
    + cbn [strip_cr]. rewrite orb_false_r, !join_cons, IH. reflexivity.
    + set (output := if pendingcr then String CR (String c d') else String c d').
      assert (Hout : (if pendingcr then String CR EmptyString else EmptyString)
                     +:+ String c d' = output) by (by destruct pendingcr).
      destruct (strip_cr output) as [out cr] eqn:Hs.
      rewrite orb_false_l, !join_cons, IH, <- append_assoc, Hout.
      rewrite (universal_newlines_strip output (join ds)), Hs. reflexivity.
Qed.

Lemma split_complete_app (s t : str) :
  iter_lines (s +:+ t)
  = fst (split_complete s) ++ iter_lines (snd (split_complete s) +:+ t).
Proof.
  induction s as [|c r IH]; [done|].
  rewrite append_cons. cbn [iter_lines split_complete].
  destruct (split_complete r) as [ls rest]. cbn [fst snd] in IH.
  destruct (is_LF c) eqn:Hc; [cbn [fst snd]; by rewrite IH|].
  rewrite IH. destruct ls as [|l ls']; cbn [fst snd app].
  - rewrite append_cons. cbn [iter_lines]. by rewrite Hc.
  - done.
Qed.

(** The lines delivered up to the end of a file are the lines of the
    text. *)
Lemma lines_of_pieces_join (qs : list str) (buf : str) :
  lines_of_pieces buf qs true = iter_lines (buf +:+ join qs).
Proof.
  revert buf. induction qs as [|q qs IH]; intros buf.
  - cbn [lines_of_pieces]. change (join []) with EmptyString.
    by rewrite append_nil_r.
  - cbn [lines_of_pieces]. rewrite join_cons, <- append_assoc.
    rewrite (split_complete_app (buf +:+ q) (join qs)).
    destruct (split_complete (buf +:+ q)) as [complete rest]. cbn [fst snd].
    by rewrite IH.
Qed.

(** A file that is valid UTF-8 is read to its end, and the lines it
    delivers are the lines of its text with the line ends translated,
    however the chunks fall. *)
Lemma text_read_valid (data : bytes) :
  utf8_valid data = true ->
  text_read data = (iter_lines (universal_newlines data), true).
Proof.
  intros Hv. unfold text_read.
  destruct (utf8_pieces_valid (chunks CHUNK_SIZE data) EmptyString) as (ds & Hds & Hj).
  { by rewrite append_nil_l, join_chunks. }
  rewrite Hds, lines_of_pieces_join, newline_pieces_join, Hj.
  by rewrite !append_nil_l, join_chunks.
Qed.







(** ** The two line loops *)

Lemma line_number_mk (line : str) (n : Z) (v : pyval) :
  line_number (mkDocument line {[ "line_number" := VInt n; "source" := v ]})
  = Some (VInt n).
Proof. unfold line_number. simpl. by rewrite lookup_insert_eq. Qed.

Lemma index_of_mk (line : str) (n : Z) (v : pyval) :
  index_of (mkDocument line {[ "line_number" := VInt n; "source" := v ]})
  = Some n.
Proof. unfold index_of. by rewrite line_number_mk. Qed.

Lemma source_of_mk (line : str) (n : Z) (v : pyval) :
  source_of (mkDocument line {[ "line_number" := VInt n; "source" := v ]})
  = Some v.
Proof.
  unfold source_of. simpl. rewrite lookup_insert_ne; [|done].
  by rewrite lookup_singleton_eq.
Qed.

Lemma decodable_valid (f : list bytes) :
  Forall (fun l => utf8_valid l = true) f ->
  decodable f = f /\ forallb utf8_valid f = true.
Proof.
  induction 1 as [|l f Hl _ [IH1 IH2]]; [done|]. simpl. by rewrite Hl, IH1, IH2.
Qed.


(** [MyParser]'s loop counts before it yields: the line at position
    [i] (from 0) gets number [m + 1 + i].  It stops at the first line
    that is not UTF-8, which [Document] refuses. *)
Lemma lazy_parse_loop_gen (fs : filesystem) (blob : Blob) (f : list bytes)
    (m : nat) (st : log) :
  exists docs : list Document,
    drain fs (lazy_parse_loop blob f (Z.of_nat m)) st
      = (st, docs,
         if forallb utf8_valid f then Exhausted else Failed ValidationError)
    /\ page_content <$> docs = decodable f
    /\ index_of <$> docs = (fun i => Some (Z.of_nat i)) <$> seq (S m) (length docs)
    /\ Forall (fun d => source_of d = Some (of_optional (source blob))) docs.
Proof.
  revert m. induction f as [|line f IH]; intros m.
  - by exists [].
  - cbn [lazy_parse_loop forallb decodable]. unfold Document_of_bytes.
    replace (Z.of_nat m + 1)%Z with (Z.of_nat (S m)) by lia.
    destruct (utf8_valid line); [|by exists []].
    destruct (IH (S m)) as (docs & Hd & Hc & Hi & Hs).
    eexists (_ :: docs). cbn [drain andb]. rewrite Hd. split; [reflexivity|].
    split; [by rewrite fmap_cons, Hc|].
    split; [by rewrite fmap_cons, index_of_mk, Hi|].
    constructor; [apply source_of_mk|done].
Qed.

Lemma lazy_parse_loop_spec (fs : filesystem) (blob : Blob) (f : list bytes)
    (m : nat) (st : log) :
  Forall (fun l => utf8_valid l = true) f ->
  exists docs : list Document,
    drain fs (lazy_parse_loop blob f (Z.of_nat m)) st = (st, docs, Exhausted)
    /\ page_content <$> docs = f
    /\ index_of <$> docs = (fun i => Some (Z.of_nat i)) <$> seq (S m) (length f)
    /\ Forall (fun d => source_of d = Some (of_optional (source blob))) docs.
Proof.
  intros Hf. destruct (decodable_valid f Hf) as [Hdec Hall].
  destruct (lazy_parse_loop_gen fs blob f m st) as (docs & Hd & Hc & Hi & Hs).
  rewrite Hall in Hd. rewrite Hdec in Hc. exists docs. repeat split; try done.
  rewrite Hi. f_equal. by rewrite <- Hc, length_fmap.
Qed.

(** [CustomDocumentLoader]'s loop yields before it counts: the line at
    position [i] (from 0) gets number [m + i]. *)
Lemma lazy_load_loop_spec (fs : filesystem) (self : CustomDocumentLoader)
    (f : list str) (m : nat) (st : log) :
  exists docs : list Document,
    drain fs (lazy_load_loop self f (Z.of_nat m)) st = (st, docs, Exhausted)
    /\ page_content <$> docs = f
    /\ index_of <$> docs = (fun i => Some (Z.of_nat i)) <$> seq m (length f)
    /\ Forall (fun d => source_of d = Some (VStr (file_path self))) docs.
Proof.
  revert m. induction f as [|line f IH]; intros m.
  - by exists [].
  - cbn [lazy_load_loop].
    replace (Z.of_nat m + 1)%Z with (Z.of_nat (S m)) by lia.
    destruct (IH (S m)) as (docs & Hd & Hc & Hi & Hs).
    eexists (_ :: docs). cbn [drain]. rewrite Hd. split; [reflexivity|].
    split; [by rewrite fmap_cons, Hc|].
    split; [by rewrite fmap_cons, index_of_mk, Hi|].
    constructor; [apply source_of_mk|done].
Qed.

(** ** [MyParser] on blobs *)

Lemma lazy_parse_InMemory_gen (fs : filesystem) (blob : Blob) (data : bytes)
    (st : log) :
  blob_payload blob = InMemory data ->
  exists docs : list Document,
    drain fs (lazy_parse MyParser_new blob) st
      = (st, docs,
         if forallb utf8_valid (iter_lines data) then Exhausted
         else Failed ValidationError)
    /\ page_content <$> docs = decodable (iter_lines data)
    /\ index_of <$> docs = (fun i => Some (Z.of_nat i)) <$> seq 1 (length docs)
    /\ Forall (fun d => source_of d = Some (of_optional (source blob))) docs.
Proof.
  intros Hp. unfold lazy_parse, MyParser_BaseBlobParser, MyParser_lazy_parse,
    as_bytes_io. rewrite Hp.
  apply (lazy_parse_loop_gen fs blob (iter_lines data) 0 st).
Qed.

Lemma lazy_parse_InMemory (fs : filesystem) (blob : Blob) (data : bytes) (st : log) :
  blob_payload blob = InMemory data ->
  utf8_valid data = true ->
  exists docs : list Document,
    drain fs (lazy_parse MyParser_new blob) st = (st, docs, Exhausted)
    /\ page_content <$> docs = iter_lines data
    /\ index_of <$> docs = (fun i => Some (Z.of_nat i)) <$> seq 1 (length docs)
    /\ Forall (fun d => source_of d = Some (of_optional (source blob))) docs.
Proof.
  intros Hp Hv.
  destruct (lazy_parse_InMemory_gen fs blob data st Hp) as (docs & Hd & Hc & Hi & Hs).
  destruct (decodable_valid _ (utf8_valid_iter_lines data Hv)) as [Hdec Hall].
  rewrite Hall in Hd. rewrite Hdec in Hc. by exists docs.
Qed.

Lemma lazy_parse_from_path_gen (fs : filesystem) (p : string)
    (md : gmap string pyval) (data : bytes) (st : log) :
  fs !! p = Some data ->
  exists docs : list Document,
    drain fs (lazy_parse MyParser_new (Blob_from_path p md)) st
      = (st ++ [p], docs,
         if forallb utf8_valid (iter_lines data) then Exhausted
         else Failed ValidationError)
    /\ page_content <$> docs = decodable (iter_lines data)
    /\ index_of <$> docs = (fun i => Some (Z.of_nat i)) <$> seq 1 (length docs)
    /\ Forall (fun d => source_of d = Some (VStr p)) docs.
Proof.
  intros Hp. unfold lazy_parse, MyParser_BaseBlobParser, MyParser_lazy_parse,
    as_bytes_io. cbn [blob_payload Blob_from_path source drain]. rewrite Hp.
  apply (lazy_parse_loop_gen fs (Blob_from_path p md) (iter_lines data) 0
           (st ++ [p])).
Qed.

Lemma lazy_parse_sources (fs : filesystem) (blob : Blob) :
  Forall (fun d => source_of d = Some (of_optional (source blob)))
    (records fs (lazy_parse MyParser_new blob)).
Proof.
  unfold lazy_parse, MyParser_BaseBlobParser, MyParser_lazy_parse, as_bytes_io.
  destruct (blob_payload blob) as [data|].
  - destruct (lazy_parse_loop_gen fs blob (iter_lines data) 0 [])
      as (docs & Hd & _ & _ & Hs).
    change (Z.of_nat 0) with 0%Z in Hd. unfold records. by rewrite Hd.
  - destruct (source blob) as [path|] eqn:Hsrc; [|by constructor].
    rewrite records_Open. destruct (fs !! path) as [data|]; [|by constructor].
    destruct (lazy_parse_loop_gen fs blob (iter_lines data) 0 [])
      as (docs & Hd & _ & _ & Hs).
    change (Z.of_nat 0) with 0%Z in Hd. unfold records. rewrite Hd. simpl.
    by rewrite Hsrc in Hs.
Qed.

(** What [CustomDocumentLoader.lazy_load] does with the file at its
    path: it yields the lines the file delivers, numbered from 0, and
    ends as the reading of the file ends. *)
Lemma lazy_load_gen (fs : filesystem) (self : CustomDocumentLoader)
    (data : bytes) (st : log) :
  fs !! file_path self = Some data ->
  exists docs : list Document,
    drain fs (lazy_load self) st
      = (st ++ [file_path self], docs,
         if snd (text_read data) then Exhausted else Failed UnicodeDecodeError)
    /\ page_content <$> docs = fst (text_read data)
    /\ index_of <$> docs = (fun i => Some (Z.of_nat i)) <$> seq 0 (length docs)
    /\ Forall (fun d => source_of d = Some (VStr (file_path self))) docs.
Proof.
  intros Hp. unfold lazy_load, CustomDocumentLoader_BaseLoader,
    CustomDocumentLoader_lazy_load. cbn [drain]. rewrite Hp.
  destruct (text_read data) as [f ok]. cbn [fst snd].
  destruct (lazy_load_loop_spec fs self f 0 (st ++ [file_path self]))
    as (docs & Hd & Hc & Hi & Hs).
  change (Z.of_nat 0) with 0%Z in Hd.
  rewrite drain_yield_from, Hd. exists docs.
  split; [destruct ok; simpl; by rewrite app_nil_r|].
  repeat split; try done. rewrite Hi. f_equal. by rewrite <- Hc, length_fmap.
Qed.

(** The file is read by chunks of 8192 bytes: the 81 lines that the
    first chunk completes are yielded before the second chunk fails
    to decode. *)
Lemma lazy_load_by_chunk :
  length (records big_fs (lazy_load {| file_path := "big.txt" |})) = 81%nat
  /\ outcome big_fs (lazy_load {| file_path := "big.txt" |})
     = Failed UnicodeDecodeError.
Proof. split; vm_compute; reflexivity. Qed.

(** C1: for every blob whose payload is an in-memory byte buffer that
    is valid UTF-8, [MyParser.lazy_parse] ends normally and yields
    exactly one record per line of the buffer (a last line without
    terminator included), the content of each record being the line
    with its terminator, and the position indices being 1, 2, 3, ...
    in order; on [b"a\nb\nc"] it yields three records with contents
    ["a\n"], ["b\n"], ["c"] and indices 1, 2, 3. *)
Theorem lazy_parse_one_record_per_line
    (fs : filesystem) (origin : option string) (data : bytes)
    (enc : string) (mime : option string) (md : gmap string pyval) (st : log) :
  utf8_valid data = true ->
  (exists docs : list Document,
      drain fs (lazy_parse MyParser_new (mkBlob origin (InMemory data) enc mime md)) st
        = (st, docs, Exhausted)
      /\ lines_of data (page_content <$> docs)
      /\ (forall ls, lines_of data ls -> ls = page_content <$> docs)
      /\ index_of <$> docs = (fun i => Some (Z.of_nat i)) <$> seq 1 (length docs))
  /\ page_content <$> records fs (lazy_parse MyParser_new (Blob_data a_b_c))
       = ["a" +:+ nl; "b" +:+ nl; "c"]
  /\ index_of <$> records fs (lazy_parse MyParser_new (Blob_data a_b_c))
       = [Some 1%Z; Some 2%Z; Some 3%Z].
Proof.
  intros Hv. split; [|split; reflexivity].
  destruct (lazy_parse_InMemory fs (mkBlob origin (InMemory data) enc mime md)
              data st eq_refl Hv) as (docs & Hd & Hc & Hi & _).
  exists docs. rewrite Hc. repeat split; try done.
  - apply iter_lines_sound.
  - apply iter_lines_complete.
Qed.

Lemma lazy_parse_one_record_per_line_example :
  (exists docs : list Document,
      drain ∅ (lazy_parse MyParser_new (mkBlob None (InMemory a_b_c) "utf-8" None ∅)) []
        = ([], docs, Exhausted)
      /\ lines_of a_b_c (page_content <$> docs)
      /\ (forall ls, lines_of a_b_c ls -> ls = page_content <$> docs)
      /\ index_of <$> docs = (fun i => Some (Z.of_nat i)) <$> seq 1 (length docs))
  /\ page_content <$> records ∅ (lazy_parse MyParser_new (Blob_data a_b_c))
       = ["a" +:+ nl; "b" +:+ nl; "c"]
  /\ index_of <$> records ∅ (lazy_parse MyParser_new (Blob_data a_b_c))
       = [Some 1%Z; Some 2%Z; Some 3%Z].
Proof.
  exact (lazy_parse_one_record_per_line ∅ None a_b_c "utf-8" None ∅ [] eq_refl).
Defined.

(** On [b"a\n\xe9\nc"] the parser yields the first line and then
    fails: [Document] refuses the second line. *)
Lemma lazy_parse_latin1_second_line :
  drain ∅ (lazy_parse MyParser_new (Blob_data latin1_second_line)) []
  = ([],
     [ mkDocument ("a" +:+ nl) {[ "line_number" := VInt 1; "source" := VNone ]} ],
     Failed ValidationError).
Proof. reflexivity. Qed.

Lemma not_every_buffer_parses : ¬ every_buffer_parses_to_its_lines.
Proof.
  intros Hclaim. destruct (Hclaim latin1_second_line) as (docs & Hd & _).
  rewrite lazy_parse_latin1_second_line in Hd. discriminate Hd.
Qed.


(** C10: a blob built from bytes in memory has no origin, and the
    records [MyParser.lazy_parse] yields from it still have the key
    ["source"], with value [None]; whatever the blob, the key is
    present in every record.  On [b"some data from memory\nmeow"] the
    result is the one the notebook shows. *)
Theorem in_memory_source_is_None (fs : filesystem) (data : bytes) (blob : Blob) :
  Forall (fun d => metadata d !! "source" = Some VNone)
    (records fs (lazy_parse MyParser_new (Blob_data data)))
  /\ Forall (fun d => "source" ∈ dom (metadata d))
       (records fs (lazy_parse MyParser_new blob))
  /\ drain fs (lazy_parse MyParser_new (Blob_data data_from_memory)) []
     = ([],
        [ mkDocument ("some data from memory" +:+ nl)
            {[ "line_number" := VInt 1; "source" := VNone ]};
          mkDocument "meow"
            {[ "line_number" := VInt 2; "source" := VNone ]} ],
        Exhausted).
Proof.
  split; [apply (lazy_parse_sources fs (Blob_data data))|].
  split; [|reflexivity].
  eapply Forall_impl; [apply lazy_parse_sources|].
  intros d Hd. apply elem_of_dom. unfold source_of in Hd. by rewrite Hd.
Qed.

(** ** [GenericLoader] *)

Lemma take_within {A} (fs : filesystem) (g : gen A) (n : nat) (st : log) :
  (n <= length (records fs g))%nat -> snd (take fs g n st) = None.
Proof.
  intros Hn. destruct (snd (take fs g n st)) as [e|] eqn:He; [|done].
  apply take_ended in He. lia.
Qed.

Lemma take_beyond {A} (fs : filesystem) (g : gen A) (n : nat) (st : log) :
  (length (records fs g) < n)%nat ->
  take fs g n st = (st ++ resolved fs g, records fs g, Some (outcome fs g)).
Proof.
  revert n st. induction g as [|e|a k IH|path k IH|k IH];
    intros [|n] st; try (simpl; lia); intros Hn.
  - simpl. by rewrite app_nil_r.
  - simpl. by rewrite app_nil_r.
  - rewrite records_Yield in Hn. simpl in Hn.
    cbn [take]. rewrite (IH n st) by lia.
    by rewrite records_Yield, outcome_Yield, resolved_Yield.
  - rewrite records_Open in Hn. cbn [take].
    rewrite records_Open, outcome_Open, resolved_Open.
    destruct (fs !! path) as [data|]; [|by rewrite app_nil_r].
    rewrite (IH data (S n)) by done. by rewrite <- app_assoc.
  - apply (IH (S n)). done.
Qed.

(** C3: when no parse fails, [GenericLoader.lazy_load] yields exactly
    the concatenation, in enumeration order, of the parser's records
    for each blob of the source, each in the parser's order (nothing
    reordered, dropped, merged or repeated), and it ends as the
    enumeration ends; blobs [B1; B2] parsed to [r1a; r1b] and [r2a]
    give [r1a; r1b; r2a]. *)
Theorem generic_loader_concatenates `{BlobLoader Src} `{BaseBlobParser P}
    (fs : filesystem) (self : GenericLoader Src P) :
  Forall (fun b => outcome fs (lazy_parse (blob_parser self) b) = Exhausted)
    (records fs (yield_blobs (blob_loader self))) ->
  records fs (lazy_load self) =
    concat (map (fun b => records fs (lazy_parse (blob_parser self) b))
              (records fs (yield_blobs (blob_loader self))))
  /\ outcome fs (lazy_load self) = outcome fs (yield_blobs (blob_loader self)).
Proof.
  intros Hp.
  pose proof (for_each_chain fs (yield_blobs (blob_loader self))
                (lazy_parse (blob_parser self))) as Hc.
  rewrite chain_all_exhausted in Hc by (apply Forall_map; by simpl).
  rewrite map_map in Hc. simpl in Hc. injection Hc as Hr Ho.
  split; [exact Hr|exact Ho].
Qed.

Lemma generic_loader_concatenates_example :
  Forall (fun b => outcome ∅ (lazy_parse table_parser b) = Exhausted)
    (records ∅ (yield_blobs two_blobs))
  /\ records ∅ (lazy_load (mkGenericLoader two_blobs table_parser))
     = [r1a; r1b; r2a]
  /\ outcome ∅ (lazy_load (mkGenericLoader two_blobs table_parser)) = Exhausted.
Proof.
  assert (Hp : Forall (fun b => outcome ∅ (lazy_parse table_parser b) = Exhausted)
                 (records ∅ (yield_blobs two_blobs))).
  { repeat constructor. }
  split; [exact Hp|].
  exact (generic_loader_concatenates ∅ (mkGenericLoader two_blobs table_parser) Hp).
Defined.

(** C7: let the parser succeed on the first [k] blobs of the source.
    If the enumeration raises after them, [GenericLoader.lazy_load]
    yields all the records of those [k] blobs, unchanged and in order,
    and then raises the same exception; if instead the parser raises
    on the next blob, [lazy_load] yields in addition the records the
    parser had yielded from that blob, raises the parser's exception,
    and goes on to no later blob.  A consumer that asks for no more
    than the records yielded sees no exception; the next request
    raises. *)
Theorem generic_loader_propagates_failure `{BlobLoader Src} `{BaseBlobParser P}
    (fs : filesystem) (self : GenericLoader Src P) (good : list Blob) (st : log) :
  Forall (fun b => outcome fs (lazy_parse (blob_parser self) b) = Exhausted) good ->
  (forall e : exn,
      records fs (yield_blobs (blob_loader self)) = good ->
      outcome fs (yield_blobs (blob_loader self)) = Failed e ->
      records fs (lazy_load self) =
        concat (map (fun b => records fs (lazy_parse (blob_parser self) b)) good)
      /\ outcome fs (lazy_load self) = Failed e)
  /\ (forall (b : Blob) (more : list Blob) (e : exn),
      records fs (yield_blobs (blob_loader self)) = good ++ b :: more ->
      outcome fs (lazy_parse (blob_parser self) b) = Failed e ->
      records fs (lazy_load self) =
        concat (map (fun b => records fs (lazy_parse (blob_parser self) b)) good)
        ++ records fs (lazy_parse (blob_parser self) b)
      /\ outcome fs (lazy_load self) = Failed e)
  /\ (forall n : nat,
      (n <= length (records fs (lazy_load self)))%nat ->
      snd (fst (take fs (lazy_load self) n st)) = firstn n (records fs (lazy_load self))
      /\ snd (take fs (lazy_load self) n st) = None)
  /\ snd (take fs (lazy_load self) (S (length (records fs (lazy_load self)))) st)
     = Some (outcome fs (lazy_load self)).
Proof.
  intros Hgood.
  pose proof (for_each_chain fs (yield_blobs (blob_loader self))
                (lazy_parse (blob_parser self))) as Hc.
  change (for_each (yield_blobs (blob_loader self)) (lazy_parse (blob_parser self)))
    with (lazy_load self) in Hc.
  assert (Hparts : Forall (fun p : list Document * ending => snd p = Exhausted)
            (map (fun b => (records fs (lazy_parse (blob_parser self) b),
                            outcome fs (lazy_parse (blob_parser self) b))) good)).
  { apply Forall_map. by simpl. }
  split; [|split; [|split]].
  - intros e Hblobs Hend. rewrite Hblobs, Hend, chain_all_exhausted in Hc by done.
    rewrite map_map in Hc. simpl in Hc. injection Hc as Hr Ho.
    split; [exact Hr|exact Ho].
  - intros b more e Hblobs Hfail. rewrite Hblobs, map_app in Hc. cbn [map] in Hc.
    rewrite Hfail, chain_first_failure in Hc by done.
    rewrite map_map in Hc. simpl in Hc. injection Hc as Hr Ho.
    split; [exact Hr|exact Ho].
  - intros n Hn. split; [apply take_records|by apply take_within].
  - rewrite take_beyond by lia. done.
Qed.

Lemma generic_loader_propagates_failure_example :
  (records ∅ (lazy_load (mkGenericLoader second_blob_unreachable table_parser))
     = [r1a; r1b]
   /\ outcome ∅ (lazy_load (mkGenericLoader second_blob_unreachable table_parser))
     = Failed (SourceEnumerationError "storage unreachable"))
  /\ (records ∅ (lazy_load (mkGenericLoader two_blobs failing_parser))
     = [r1a; r1b; r2a]
   /\ outcome ∅ (lazy_load (mkGenericLoader two_blobs failing_parser))
     = Failed (DecodeError "malformed"))
  /\ (snd (fst (take ∅ (lazy_load (mkGenericLoader second_blob_unreachable table_parser)) 2 []))
     = [r1a; r1b]
   /\ snd (take ∅ (lazy_load (mkGenericLoader second_blob_unreachable table_parser)) 2 [])
     = None)
  /\ snd (take ∅ (lazy_load (mkGenericLoader second_blob_unreachable table_parser)) 3 [])
     = Some (Failed (SourceEnumerationError "storage unreachable")).
Proof.
  assert (Hgood : Forall (fun b => outcome ∅ (lazy_parse table_parser b) = Exhausted) [B1]).
  { repeat constructor. }
  assert (Hgood' : Forall (fun b => outcome ∅ (lazy_parse failing_parser b) = Exhausted) [B1]).
  { repeat constructor. }
  assert (Hn : (2 <= length (records ∅
             (lazy_load (mkGenericLoader second_blob_unreachable table_parser))))%nat).
  { vm_compute. lia. }
  pose proof (generic_loader_propagates_failure ∅
                (mkGenericLoader second_blob_unreachable table_parser) [B1] [] Hgood)
    as (Henum & _ & Hwithin & Hnext).
  pose proof (generic_loader_propagates_failure ∅
                (mkGenericLoader two_blobs failing_parser) [B1] [] Hgood')
    as (_ & Hparse & _).
  split; [exact (Henum (SourceEnumerationError "storage unreachable") eq_refl eq_refl)|].
  split; [exact (Hparse B2 [] (DecodeError "malformed") eq_refl eq_refl)|].
  split; [exact (Hwithin 2%nat Hn)|exact Hnext].
Defined.

(** The hand-written loop of the notebook prints the first record of
    every blob. *)
Lemma records_first_then_break {A} (fs : filesystem) (g : gen A) :
  records fs (first_then_break g) = firstn 1 (records fs g)
  /\ (outcome fs g = Exhausted -> outcome fs (first_then_break g) = Exhausted).
Proof.
  induction g as [|e|a k IH|path k IH|k IH]; simpl; try done.
  - by rewrite !records_Yield.
  - rewrite !records_Open, !outcome_Open. destruct (fs !! path); [apply IH|done].
Qed.

Lemma print_first_of_each_records `{BlobLoader Src} `{BaseBlobParser P}
    (fs : filesystem) (loader : Src) (parser : P) :
  Forall (fun b => outcome fs (lazy_parse parser b) = Exhausted)
    (records fs (yield_blobs loader)) ->
  records fs (print_first_of_each loader parser) =
    concat (map (fun b => firstn 1 (records fs (lazy_parse parser b)))
              (records fs (yield_blobs loader))).
Proof.
  intros Hp. unfold print_first_of_each.
  pose proof (for_each_chain fs (yield_blobs loader)
                (fun blob => first_then_break (lazy_parse parser blob))) as Hc.
  rewrite chain_all_exhausted in Hc.
  - rewrite map_map in Hc. simpl in Hc. injection Hc as Hr _. rewrite Hr.
    f_equal. apply map_ext. intros b. apply records_first_then_break.
  - apply Forall_map. simpl. eapply Forall_impl; [exact Hp|].
    intros b Hb. by apply records_first_then_break.
Qed.

(** ** Laziness *)









(** ** The loader and the parser on the same file *)

Lemma offset_by_one (ld pd : list Document) (m : nat) :
  length ld = length pd ->
  index_of <$> ld = (fun i => Some (Z.of_nat i)) <$> seq m (length ld) ->
  index_of <$> pd = (fun i => Some (Z.of_nat i)) <$> seq (S m) (length pd) ->
  Forall2 (fun l p => exists i : Z, index_of l = Some i /\ index_of p = Some (i + 1)%Z)
    ld pd.
Proof.
  revert pd m. induction ld as [|a ld IH]; intros [|b pd] m Hlen; try done.
  cbn [length seq]. rewrite !fmap_cons. intros [= Ha Hld] [= Hb Hpd].
  constructor.
  - exists (Z.of_nat m). split; [done|]. rewrite Hb. f_equal. lia.
  - apply (IH pd (S m)); [by injection Hlen|done..].
Qed.

(** C9: on a file that is valid UTF-8 and has no carriage return, the
    standalone loader and the parser yield the same contents in the
    same order, the lines of the file; the loader numbers them from 0
    and the parser from 1, so that the position indices of
    corresponding records differ by exactly one. *)
Theorem loader_and_parser_differ_by_one
    (fs : filesystem) (path : string) (md : gmap string pyval) (data : bytes) :
  fs !! path = Some data ->
  utf8_valid data = true ->
  free_of CR data = true ->
  let ld := records fs (lazy_load {| file_path := path |}) in
  let pd := records fs (lazy_parse MyParser_new (Blob_from_path path md)) in
  page_content <$> ld = page_content <$> pd
  /\ page_content <$> pd = iter_lines data
  /\ index_of <$> ld = (fun i => Some (Z.of_nat i)) <$> seq 0 (length ld)
  /\ index_of <$> pd = (fun i => Some (Z.of_nat i)) <$> seq 1 (length pd)
  /\ Forall2
       (fun l p => exists i : Z, index_of l = Some i /\ index_of p = Some (i + 1)%Z)
       ld pd.
Proof.
  intros Hfile Hutf8 Hcr ld pd.
  destruct (lazy_load_gen fs {| file_path := path |} data [] Hfile)
    as (l & Hl & Hlc & Hli & _).
  destruct (lazy_parse_from_path_gen fs path md data [] Hfile)
    as (p & Hp & Hpc & Hpi & _).
  assert (Hld : ld = l) by (subst ld; unfold records; by rewrite Hl).
  assert (Hpd : pd = p) by (subst pd; unfold records; by rewrite Hp).
  rewrite Hld, Hpd. clear ld pd Hld Hpd Hl Hp.
  rewrite text_read_valid, universal_newlines_id in Hlc by done.
  cbn [fst] in Hlc.
  destruct (decodable_valid (iter_lines data) (utf8_valid_iter_lines data Hutf8))
    as [Hdec _].
  rewrite Hdec in Hpc.
  repeat split; try done.
  - by rewrite Hlc, Hpc.
  - apply (offset_by_one l p 0); [|done..].
    by rewrite <- (length_fmap page_content l), <- (length_fmap page_content p), Hlc, Hpc.
Qed.

Lemma loader_and_parser_differ_by_one_example :
  let ld := records meow_fs (lazy_load {| file_path := "./meow.txt" |}) in
  let pd := records meow_fs (lazy_parse MyParser_new (Blob_from_path "./meow.txt" ∅)) in
  page_content <$> ld = page_content <$> pd
  /\ page_content <$> pd = iter_lines quality_content
  /\ index_of <$> ld = (fun i => Some (Z.of_nat i)) <$> seq 0 (length ld)
  /\ index_of <$> pd = (fun i => Some (Z.of_nat i)) <$> seq 1 (length pd)
  /\ Forall2
       (fun l p => exists i : Z, index_of l = Some i /\ index_of p = Some (i + 1)%Z)
       ld pd.
Proof.
  exact (loader_and_parser_differ_by_one meow_fs "./meow.txt" ∅ quality_content
           eq_refl eq_refl eq_refl).
Defined.

Lemma crlf_contents_differ : ¬ loader_and_parser_same_contents.
Proof.
  intros Hclaim.
  specialize (Hclaim crlf_fs "notes.txt" ("a" +:+ String CR nl +:+ "b") eq_refl).
  vm_compute in Hclaim. discriminate Hclaim.
Qed.

(** On the CR LF file the loader delivers ["a\n"] where the parser
    delivers ["a\r\n"]; on the file that is not UTF-8 the loader raises
    [UnicodeDecodeError] and the parser raises [ValidationError], both
    before any record. *)
Lemma crlf_and_latin1_files :
  page_content <$> records crlf_fs (lazy_load {| file_path := "notes.txt" |})
    = ["a" +:+ nl; "b"]
  /\ page_content <$> records crlf_fs (lazy_parse MyParser_new (Blob_from_path "notes.txt" ∅))
    = ["a" +:+ String CR nl; "b"]
  /\ drain crlf_fs (lazy_load {| file_path := "latin1.txt" |}) []
    = (["latin1.txt"], [], Failed UnicodeDecodeError)
  /\ drain crlf_fs (lazy_parse MyParser_new (Blob_from_path "latin1.txt" ∅)) []
    = (["latin1.txt"], [], Failed ValidationError).
Proof. repeat split. Qed.

(** ** Eager loading *)

Lemma materialize_drain {A} (fs : filesystem) (g : gen A) (st : log) (fuel : nat) :
  (length (records fs g) < fuel)%nat ->
  materialize fs fuel g st = Some (drain fs g st).
Proof.
  revert st fuel. induction g as [|e|a k IH|path k IH|k IH];
    intros st [|fuel] Hfuel; try lia.
  - done.
  - done.
  - rewrite records_Yield in Hfuel. simpl in Hfuel.
    cbn [materialize next drain]. rewrite (IH st fuel) by lia.
    by destruct (drain fs k st) as [[st' l] e].
  - rewrite records_Open in Hfuel.
    cbn [materialize next drain]. destruct (fs !! path) as [data|]; [|done].
    apply (IH data (st ++ [path]) (S fuel) Hfuel).
  - apply (IH st (S fuel) Hfuel).
Qed.

(** C4: for every loader, [load()] returns exactly what asking
    [lazy_load()] for its next record, until it stops or raises,
    delivers: the same records in the same order (and the same
    exception, if any); on [./meow.txt] it is the list the notebook
    shows. *)
Theorem load_is_drained_lazy_load `{BaseLoader L}
    (fs : filesystem) (self : L) (st : log) (extra : nat) :
  materialize fs (S (length (snd (fst (load fs self st))) + extra)) (lazy_load self) st
    = Some (load fs self st)
  /\ load meow_fs {| file_path := "./meow.txt" |} []
     = (["./meow.txt"],
        [ mkDocument ("meow meow🐱 " +:+ nl)
            {[ "line_number" := VInt 0; "source" := VStr "./meow.txt" ]};
          mkDocument (" meow meow🐱 " +:+ nl)
            {[ "line_number" := VInt 1; "source" := VStr "./meow.txt" ]};
          mkDocument " meow😻😻"
            {[ "line_number" := VInt 2; "source" := VStr "./meow.txt" ]} ],
        Exhausted).
Proof.
  split; [|reflexivity].
  unfold load. apply materialize_drain. rewrite drain_log. simpl. lia.
Qed.

(** ** Asynchronous loading *)

Section Async.
Variable fs : filesystem.

Lemma drain_alazy_load_loop (self : CustomDocumentLoader) (f : list str)
    (ok : bool) (m : Z) (st : log) :
  drain fs (yield_from (alazy_load_loop self f m) (Suspend (end_of_file ok))) st
    = drain fs (yield_from (lazy_load_loop self f m) (end_of_file ok)) st.
Proof.
  revert m. induction f as [|line f IH]; intros m; [done|].
  cbn [alazy_load_loop lazy_load_loop yield_from drain]. by rewrite IH.
Qed.

Lemma take_alazy_load_loop (self : CustomDocumentLoader) (f : list str)
    (ok : bool) (m : Z) (n : nat) (st : log) :
  take fs (yield_from (alazy_load_loop self f m) (Suspend (end_of_file ok))) n st
    = take fs (yield_from (lazy_load_loop self f m) (end_of_file ok)) n st.
Proof.
  revert m n. induction f as [|line f IH]; intros m [|n]; rewrite ?take_O;
    try done.
  cbn [alazy_load_loop lazy_load_loop yield_from take]. by rewrite IH.
Qed.

Lemma drain_run_in_executor {A} (g : gen A) (st : log) :
  drain fs (run_in_executor g) st = drain fs g st.
Proof.
  revert st. induction g as [|e|a k IH|path k IH|k IH]; intros st; simpl;
    try done.
  - by rewrite IH.
  - by destruct (fs !! path).
Qed.

Lemma take_run_in_executor {A} (g : gen A) (n : nat) (st : log) :
  take fs (run_in_executor g) n st = take fs g n st.
Proof.
  revert n st. induction g as [|e|a k IH|path k IH|k IH]; intros [|n] st;
    simpl; try done.
  - destruct n as [|n]; [by rewrite take_O|].
    cbn [take]. by rewrite IH.
  - destruct (fs !! path); [apply (IH _ (S n))|done].
Qed.

(** C6: the asynchronous variants deliver what the synchronous ones
    deliver.  For [CustomDocumentLoader], whose [alazy_load] is
    written out, and for a [GenericLoader], whose [alazy_load] is
    the default one: a consumer of [alazy_load] receives the same
    records (contents, position indices, sources) in the same order
    as a consumer of [lazy_load], whether it runs to the end or
    stops after [n] records, meets the same exception at the same
    point, and has made the loader read the same files; [aload]
    returns what [load] returns. *)
Theorem async_matches_sync `{BlobLoader Src} `{BaseBlobParser P}
    (self : CustomDocumentLoader) (generic : GenericLoader Src P)
    (st : log) (n : nat) :
  (drain fs (alazy_load self) st = drain fs (lazy_load self) st
   /\ take fs (alazy_load self) n st = take fs (lazy_load self) n st
   /\ aload fs self st = load fs self st)
  /\ (drain fs (alazy_load generic) st = drain fs (lazy_load generic) st
      /\ take fs (alazy_load generic) n st = take fs (lazy_load generic) n st
      /\ aload fs generic st = load fs generic st).
Proof.
  assert (Hd : drain fs (alazy_load self) st = drain fs (lazy_load self) st).
  { unfold alazy_load, lazy_load, CustomDocumentLoader_BaseLoader,
      CustomDocumentLoader_alazy_load, CustomDocumentLoader_lazy_load.
    cbn [drain]. destruct (fs !! file_path self) as [data|]; [|done].
    destruct (text_read data) as [f ok].
    apply drain_alazy_load_loop. }
  assert (Hg : drain fs (alazy_load generic) st = drain fs (lazy_load generic) st).
  { unfold alazy_load at 1, GenericLoader_BaseLoader at 1, default_alazy_load.
    cbn [drain]. apply drain_run_in_executor. }
  repeat split; try done.
  - unfold alazy_load, lazy_load, CustomDocumentLoader_BaseLoader,
      CustomDocumentLoader_alazy_load, CustomDocumentLoader_lazy_load.
    destruct n as [|n]; [done|]. cbn [take].
    destruct (fs !! file_path self) as [data|]; [|done].
    destruct (text_read data) as [f ok].
    apply take_alazy_load_loop.
  - destruct n as [|n]; [by rewrite !take_O|].
    unfold alazy_load at 1, GenericLoader_BaseLoader at 1, default_alazy_load.
    cbn [take]. apply take_run_in_executor.
Qed.
End Async.


(** ** Joining lines, counting line feeds *)

Lemma iter_lines_nil (s : bytes) : iter_lines s = [] -> s = EmptyString.
Proof. destruct s as [|c r]; [done|]. intros H. by apply iter_lines_nonempty in H. Qed.

Lemma join_iter_lines (s : bytes) : join (iter_lines s) = s.
Proof.
  induction s as [|c r IH]; [done|]. cbn [iter_lines].
  destruct (is_LF c); [simpl; by rewrite IH|].
  destruct (iter_lines r) as [|l ls] eqn:Hr.
  - apply iter_lines_nil in Hr. by subst r.
  - by rewrite <- IH.
Qed.

Lemma open_ended_cons (c : ascii) (r : string) :
  r <> EmptyString -> open_ended (String c r) = open_ended r.
Proof. by destruct r. Qed.

Lemma length_iter_lines (s : bytes) :
  length (iter_lines s)
  = (count_byte LF s + (if open_ended s then 1 else 0))%nat.
Proof.
  induction s as [|c r IH]; [done|]. cbn [iter_lines count_byte].
  fold (is_LF c). destruct (is_LF c) eqn:Hc.
  - cbn [length]. rewrite IH. destruct r as [|c' r'].
    + cbn [open_ended count_byte]. rewrite Hc. reflexivity.
    + by rewrite (open_ended_cons c).
  - destruct (iter_lines r) as [|l ls] eqn:Hr.
    + apply iter_lines_nil in Hr. subst r. cbn [open_ended count_byte length].
      rewrite Hc. reflexivity.
    + rewrite (open_ended_cons c) by (intros ->; discriminate).
      cbn [length] in *. by rewrite IH.
Qed.

Lemma forallb_Forall {A} (f : A -> bool) (l : list A) :
  forallb f l = true -> Forall (fun x => f x = true) l.
Proof.
  induction l as [|x l IH]; [constructor|]. cbn [forallb].
  intros [Hx Hl]%andb_prop. constructor; [done|by apply IH].
Qed.

Lemma utf8_valid_join (ls : list bytes) :
  Forall (fun l => utf8_valid l = true) ls -> utf8_valid (join ls) = true.
Proof.
  induction 1 as [|l ls Hl _ IH]; [done|].
  by rewrite join_cons, utf8_valid_app.
Qed.

(** A buffer is valid UTF-8 exactly when each of its lines is: a line
    feed never falls inside a longer sequence. *)
Lemma forallb_utf8_valid_iter_lines (data : bytes) :
  forallb utf8_valid (iter_lines data) = utf8_valid data.
Proof.
  destruct (utf8_valid data) eqn:Hv.
  - by destruct (decodable_valid _ (utf8_valid_iter_lines data Hv)).
  - destruct (forallb utf8_valid (iter_lines data)) eqn:Hall; [|done].
    apply forallb_Forall, utf8_valid_join in Hall.
    rewrite join_iter_lines in Hall. congruence.
Qed.

Lemma decoded_more_Some (seq : string) (r : option (str * bytes))
    (d : str) (p : bytes) :
  decoded_more seq r = Some (d, p) ->
  exists d' : str, r = Some (d', p) /\ d = seq +:+ d'.
Proof.
  destruct r as [[d' p']|]; [|done]. cbn [decoded_more].
  intros [= <- <-]. by exists d'.
Qed.

(** What the incremental decoder delivers is valid UTF-8, and with
    the bytes it keeps back it is the input. *)
Lemma utf8_chunk_sound (x : bytes) (d : str) (p : bytes) :
  utf8_chunk x = Some (d, p) -> d +:+ p = x /\ utf8_valid d = true.
Proof.
  assert (H : forall (n : nat) (x : bytes) (d : str) (p : bytes),
            (String.length x <= n)%nat ->
            utf8_chunk x = Some (d, p) -> d +:+ p = x /\ utf8_valid d = true).
  { clear x d p. induction n as [|n IH]; intros [|b0 r0] d p Hlen Hx;
      try (injection Hx as <- <-; done); try (simpl in Hlen; lia).
    cbn [String.length] in Hlen. cbn [utf8_chunk] in Hx.
    destruct (byte_in 0 127 b0) eqn:A0.
    { apply decoded_more_Some in Hx as (d' & Hx & ->).
      destruct (IH r0 d' p ltac:(lia) Hx) as [Hdp Hv].
      rewrite !append_cons, append_nil_l, Hdp. split; [done|].
      cbn [utf8_valid]. by rewrite A0. }
    destruct (byte_in 194 223 b0) eqn:A1.
    { destruct r0 as [|b1 r1]; [injection Hx as <- <-; done|].
      cbn [String.length] in Hlen.
      destruct (utf8_tail b1) eqn:T1; [|done].
      apply decoded_more_Some in Hx as (d' & Hx & ->).
      destruct (IH r1 d' p ltac:(lia) Hx) as [Hdp Hv].
      rewrite !append_cons, append_nil_l, Hdp. split; [done|].
      cbn [utf8_valid]. by rewrite A0, A1, T1. }
    destruct (byte_in 224 239 b0) eqn:A2.
    { destruct r0 as [|b1 r1]; [injection Hx as <- <-; done|].
      cbn [String.length] in Hlen.
      destruct (if byte_in 224 224 b0 then byte_in 160 191 b1
                else if byte_in 237 237 b0 then byte_in 128 159 b1
                else utf8_tail b1) eqn:C1; [|done].
      destruct r1 as [|b2 r2]; [injection Hx as <- <-; done|].
      cbn [String.length] in Hlen.
      destruct (utf8_tail b2) eqn:T2; [|done].
      apply decoded_more_Some in Hx as (d' & Hx & ->).
      destruct (IH r2 d' p ltac:(lia) Hx) as [Hdp Hv].
      rewrite !append_cons, append_nil_l, Hdp. split; [done|].
      cbn [utf8_valid]. by rewrite A0, A1, A2, C1, T2. }
    destruct (byte_in 240 244 b0) eqn:B0; [|done].
    destruct r0 as [|b1 r1]; [injection Hx as <- <-; done|].
    cbn [String.length] in Hlen.
    destruct (if byte_in 240 240 b0 then byte_in 144 191 b1
              else if byte_in 244 244 b0 then byte_in 128 143 b1
              else utf8_tail b1) eqn:C1; [|done].
    destruct r1 as [|b2 r2]; [injection Hx as <- <-; done|].
    cbn [String.length] in Hlen.
    destruct (utf8_tail b2) eqn:T2; [|done].
    destruct r2 as [|b3 r3]; [injection Hx as <- <-; done|].
    cbn [String.length] in Hlen.
    destruct (utf8_tail b3) eqn:T3; [|done].
    apply decoded_more_Some in Hx as (d' & Hx & ->).
    destruct (IH r3 d' p ltac:(lia) Hx) as [Hdp Hv].
    rewrite !append_cons, append_nil_l, Hdp. split; [done|].
    cbn [utf8_valid]. by rewrite A0, A1, A2, B0, C1, T2, T3. }
  by apply (H (String.length x)).
Qed.

Lemma utf8_pieces_sound (cs : list bytes) (pending : bytes) (ds : list str) :
  utf8_pieces pending cs = (ds, true) ->
  utf8_valid (pending +:+ join cs) = true.
Proof.
  revert pending ds. induction cs as [|c cs IH]; intros pending ds.
  - cbn [utf8_pieces]. change (join []) with EmptyString.
    rewrite append_nil_r. by destruct (utf8_valid pending).
  - cbn [utf8_pieces].
    destruct (utf8_chunk (pending +:+ c)) as [[d p]|] eqn:Hc; [|done].
    destruct (utf8_pieces p cs) as [ds' ok] eqn:Hp. intros [= _ ->].
    apply utf8_chunk_sound in Hc as [Hdp Hd]. apply IH in Hp.
    by rewrite join_cons, <- append_assoc, <- Hdp, append_assoc, utf8_valid_app.
Qed.

(** The file is read to its end exactly when it is valid UTF-8. *)
Lemma text_read_ok (data : bytes) : snd (text_read data) = utf8_valid data.
Proof.
  destruct (utf8_valid data) eqn:Hv; [by rewrite text_read_valid|].
  unfold text_read.
  destruct (utf8_pieces EmptyString (chunks CHUNK_SIZE data)) as [ds ok] eqn:Hp.
  destruct ok; [|done].
  apply utf8_pieces_sound in Hp. rewrite append_nil_l, join_chunks in Hp.
  congruence.
Qed.

(** ** More on [MyParser] *)

Lemma lazy_parse_from_path_spec (fs : filesystem) (p : string)
    (md : gmap string pyval) (data : bytes) (st : log) :
  fs !! p = Some data ->
  utf8_valid data = true ->
  exists docs : list Document,
    drain fs (lazy_parse MyParser_new (Blob_from_path p md)) st
      = (st ++ [p], docs, Exhausted)
    /\ page_content <$> docs = iter_lines data
    /\ index_of <$> docs = (fun i => Some (Z.of_nat i)) <$> seq 1 (length docs)
    /\ Forall (fun d => source_of d = Some (VStr p)) docs.
Proof.
  intros Hp Hv.
  destruct (lazy_parse_from_path_gen fs p md data st Hp) as (docs & Hd & Hc & Hi & Hs).
  destruct (decodable_valid _ (utf8_valid_iter_lines data Hv)) as [Hdec Hall].
  rewrite Hall in Hd. rewrite Hdec in Hc. by exists docs.
Qed.

(** X1: on a payload that is valid UTF-8, [MyParser.lazy_parse] loses
    no byte and adds none: the contents of the records it yields, put
    end to end in order, are the payload of the blob, for bytes in
    memory as for a file. *)
Theorem lazy_parse_contents_join_to_payload
    (fs : filesystem) (path : string) (md : gmap string pyval) (data : bytes)
    (origin : option string) (enc : string) (mime : option string) :
  fs !! path = Some data ->
  utf8_valid data = true ->
  join (page_content <$>
          records fs (lazy_parse MyParser_new (mkBlob origin (InMemory data) enc mime md)))
    = data
  /\ join (page_content <$>
             records fs (lazy_parse MyParser_new (Blob_from_path path md)))
    = data.
Proof.
  intros Hp Hv. split.
  - destruct (lazy_parse_InMemory fs (mkBlob origin (InMemory data) enc mime md)
                data [] eq_refl Hv) as (docs & Hd & Hc & _).
    unfold records. rewrite Hd. cbn [fst snd]. rewrite Hc. apply join_iter_lines.
  - destruct (lazy_parse_from_path_spec fs path md data [] Hp Hv)
      as (docs & Hd & Hc & _).
    unfold records. rewrite Hd. cbn [fst snd]. rewrite Hc. apply join_iter_lines.
Qed.

Lemma lazy_parse_contents_join_to_payload_example :
  join (page_content <$>
          records meow_fs (lazy_parse MyParser_new (Blob_data quality_content)))
    = quality_content
  /\ join (page_content <$>
             records meow_fs (lazy_parse MyParser_new (Blob_from_path "./meow.txt" ∅)))
    = quality_content.
Proof.
  exact (lazy_parse_contents_join_to_payload meow_fs "./meow.txt" ∅ quality_content
           None "utf-8" None eq_refl eq_refl).
Defined.

(** X2: from bytes in memory that are valid UTF-8,
    [MyParser.lazy_parse] yields as many records as the buffer has
    line feeds, plus one if the buffer ends with an unterminated line;
    it yields no record exactly when the buffer is empty. *)
Theorem lazy_parse_record_count
    (fs : filesystem) (origin : option string) (data : bytes)
    (enc : string) (mime : option string) (md : gmap string pyval) :
  utf8_valid data = true ->
  let docs := records fs (lazy_parse MyParser_new
                            (mkBlob origin (InMemory data) enc mime md)) in
  length docs = (count_byte LF data + (if open_ended data then 1 else 0))%nat
  /\ (docs = [] <-> data = EmptyString).
Proof.
  intros Hv.
  destruct (lazy_parse_InMemory fs (mkBlob origin (InMemory data) enc mime md)
              data [] eq_refl Hv) as (docs & Hd & Hc & _).
  unfold records. rewrite Hd. cbn [fst snd]. split.
  - by rewrite <- (length_fmap page_content), Hc, length_iter_lines.
  - split.
    + intros ->. apply iter_lines_nil. by rewrite <- Hc.
    + intros ->. by destruct docs.
Qed.

Lemma lazy_parse_record_count_example :
  let docs := records ∅ (lazy_parse MyParser_new
                           (mkBlob None (InMemory a_b_c) "utf-8" None ∅)) in
  length docs = (count_byte LF a_b_c + (if open_ended a_b_c then 1 else 0))%nat
  /\ (docs = [] <-> a_b_c = EmptyString).
Proof.
  exact (lazy_parse_record_count ∅ None a_b_c "utf-8" None ∅ eq_refl).
Defined.

(** ** More on [CustomDocumentLoader] *)

Lemma lazy_load_spec (fs : filesystem) (self : CustomDocumentLoader)
    (data : bytes) (st : log) :
  fs !! file_path self = Some data ->
  utf8_valid data = true ->
  exists docs : list Document,
    drain fs (lazy_load self) st = (st ++ [file_path self], docs, Exhausted)
    /\ page_content <$> docs = iter_lines (universal_newlines data)
    /\ index_of <$> docs = (fun i => Some (Z.of_nat i)) <$> seq 0 (length docs)
    /\ Forall (fun d => source_of d = Some (VStr (file_path self))) docs.
Proof.
  intros Hp Hv.
  destruct (lazy_load_gen fs self data st Hp) as (docs & Hd & Hc & Hi & Hs).
  rewrite text_read_valid in Hd, Hc by done. by exists docs.
Qed.

(** X3: on a file that is valid UTF-8, [CustomDocumentLoader.lazy_load]
    opens the file once, yields the lines of the text with every
    [CR LF] and lone [CR] read as a line feed, numbers them 0, 1, 2, ...
    and ends normally; the contents put end to end are the text of the
    file after that translation. *)
Theorem lazy_load_lines_of_text
    (fs : filesystem) (self : CustomDocumentLoader) (data : bytes) (st : log) :
  fs !! file_path self = Some data ->
  utf8_valid data = true ->
  exists docs : list Document,
    drain fs (lazy_load self) st = (st ++ [file_path self], docs, Exhausted)
    /\ page_content <$> docs = iter_lines (universal_newlines data)
    /\ join (page_content <$> docs) = universal_newlines data
    /\ index_of <$> docs = (fun i => Some (Z.of_nat i)) <$> seq 0 (length docs).
Proof.
  intros Hp Hv.
  destruct (lazy_load_spec fs self data st Hp Hv) as (docs & Hd & Hc & Hi & _).
  exists docs. repeat split; try done. rewrite Hc. apply join_iter_lines.
Qed.

Lemma lazy_load_lines_of_text_example :
  exists docs : list Document,
    drain crlf_fs (lazy_load {| file_path := "notes.txt" |}) []
      = ([] ++ ["notes.txt"], docs, Exhausted)
    /\ page_content <$> docs
       = iter_lines (universal_newlines ("a" +:+ String CR nl +:+ "b"))
    /\ join (page_content <$> docs)
       = universal_newlines ("a" +:+ String CR nl +:+ "b")
    /\ index_of <$> docs = (fun i => Some (Z.of_nat i)) <$> seq 0 (length docs).
Proof.
  exact (lazy_load_lines_of_text crlf_fs {| file_path := "notes.txt" |}
           ("a" +:+ String CR nl +:+ "b") [] eq_refl eq_refl).
Defined.


(** X5: on a file that can be opened and read,
    [CustomDocumentLoader.lazy_load] ends normally exactly when the
    bytes of the file are valid UTF-8, and raises [UnicodeDecodeError]
    otherwise; [MyParser.lazy_parse] on a blob of the same path ends
    normally on the same files, and raises [ValidationError] on the
    others. *)
Theorem lazy_load_failures
    (fs : filesystem) (self : CustomDocumentLoader) (md : gmap string pyval)
    (data : bytes) :
  fs !! file_path self = Some data ->
  outcome fs (lazy_load self)
    = (if utf8_valid data then Exhausted else Failed UnicodeDecodeError)
  /\ outcome fs (lazy_parse MyParser_new (Blob_from_path (file_path self) md))
     = (if utf8_valid data then Exhausted else Failed ValidationError).
Proof.
  intros Hp. split.
  - destruct (lazy_load_gen fs self data [] Hp) as (docs & Hd & _).
    unfold outcome. rewrite Hd. cbn [snd]. by rewrite text_read_ok.
  - destruct (lazy_parse_from_path_gen fs (file_path self) md data [] Hp)
      as (docs & Hd & _).
    unfold outcome. rewrite Hd. cbn [snd].
    by rewrite forallb_utf8_valid_iter_lines.
Qed.

Lemma lazy_load_failures_example :
  outcome crlf_fs (lazy_load {| file_path := "latin1.txt" |})
    = (if utf8_valid (String "233"%char nl) then Exhausted
       else Failed UnicodeDecodeError)
  /\ outcome crlf_fs (lazy_parse MyParser_new
                        (Blob_from_path (file_path {| file_path := "latin1.txt" |}) ∅))
     = (if utf8_valid (String "233"%char nl) then Exhausted
        else Failed ValidationError).
Proof.
  exact (lazy_load_failures crlf_fs {| file_path := "latin1.txt" |} ∅
           (String "233"%char nl) eq_refl).
Defined.

(** ** Writing a text file and reading it back *)

Lemma write_newlines_Posix (s : str) : write_newlines Posix s = s.
Proof.
  induction s as [|c r IH]; [done|]. cbn [write_newlines]. rewrite IH.
  destruct (is_LF c) eqn:Hc; [|done]. apply is_LF_true in Hc. by subst c.
Qed.

Lemma universal_newlines_write (os : platform) (s : str) :
  free_of CR s = true -> universal_newlines (write_newlines os s) = s.
Proof.
  induction s as [|c r IH]; [done|]. cbn [free_of write_newlines].
  fold (is_CR c). intros [Hc Hr]%andb_prop. apply negb_true_iff in Hc.
  destruct (is_LF c) eqn:Hlf.
  - apply is_LF_true in Hlf. subst c. destruct os.
    + cbn [universal_newlines]. rewrite Hc. by rewrite IH.
    + change (universal_newlines (String CR (String LF (write_newlines Windows r))))
        with (String LF (universal_newlines (write_newlines Windows r))).
      by rewrite IH.
  - cbn [universal_newlines]. rewrite Hc. by rewrite IH.
Qed.

Lemma not_LF_high (c : ascii) (lo hi : N) :
  (11 <= lo)%N -> byte_in lo hi c = true -> is_LF c = false.
Proof.
  intros Hlo H. destruct (is_LF c) eqn:Hc; [|done].
  apply is_LF_true in Hc. subst c. unfold byte_in in H.
  apply andb_prop in H as [H _]. apply N.leb_le in H.
  change (N_of_ascii LF) with 10%N in H. lia.
Qed.

(** Replacing line feeds by the line end of the platform keeps UTF-8
    well formed: a line feed is never part of a longer sequence. *)
Lemma utf8_valid_write (os : platform) (s : str) :
  utf8_valid s = true -> utf8_valid (write_newlines os s) = true.
Proof.
  assert (H : forall (n : nat) (s : str), (String.length s <= n)%nat ->
            utf8_valid s = true -> utf8_valid (write_newlines os s) = true).
  { clear s. induction n as [|n IH]; intros [|b0 r0] Hlen Hv; try done.
    { simpl in Hlen. lia. }
    cbn [String.length] in Hlen. destruct (is_LF b0) eqn:E0.
    - apply is_LF_true in E0. subst b0. change (utf8_valid r0 = true) in Hv.
      destruct os.
      + change (utf8_valid (write_newlines Posix r0) = true). apply IH; [lia|done].
      + change (utf8_valid (write_newlines Windows r0) = true). apply IH; [lia|done].
    - cbn [utf8_valid] in Hv. destruct (byte_in 0 127 b0) eqn:A0.
      { cbn [write_newlines]. rewrite E0. cbn [utf8_valid]. rewrite A0.
        apply IH; [lia|done]. }
      destruct r0 as [|b1 r1]; [done|]. cbn [String.length] in Hlen.
      destruct (byte_in 194 223 b0) eqn:A1.
      { apply andb_prop in Hv as [T1 V].
        assert (E1 : is_LF b1 = false) by (eapply not_LF_high; [|exact T1]; lia).
        cbn [write_newlines]. rewrite E0, E1. cbn [utf8_valid].
        rewrite A0, A1, T1, andb_true_l. apply IH; [lia|done]. }
      destruct r1 as [|b2 r2]; [done|]. cbn [String.length] in Hlen.
      destruct (byte_in 224 239 b0) eqn:A2.
      { apply andb_prop in Hv as [Hv V]. apply andb_prop in Hv as [C1 T2].
        assert (E1 : is_LF b1 = false).
        { revert C1. destruct (byte_in 224 224 b0); [|destruct (byte_in 237 237 b0)];
            intros C1; (eapply not_LF_high; [|exact C1]; lia). }
        assert (E2 : is_LF b2 = false) by (eapply not_LF_high; [|exact T2]; lia).
        cbn [write_newlines]. rewrite E0, E1, E2. cbn [utf8_valid].
        rewrite A0, A1, A2, C1, T2, !andb_true_l. apply IH; [lia|done]. }
      destruct r2 as [|b3 r3]; [done|]. cbn [String.length] in Hlen.
      apply andb_prop in Hv as [Hv V]. apply andb_prop in Hv as [Hv T3].
      apply andb_prop in Hv as [Hv T2]. apply andb_prop in Hv as [B0 C1].
      assert (E1 : is_LF b1 = false).
      { revert C1. destruct (byte_in 240 240 b0); [|destruct (byte_in 244 244 b0)];
          intros C1; (eapply not_LF_high; [|exact C1]; lia). }
      assert (E2 : is_LF b2 = false) by (eapply not_LF_high; [|exact T2]; lia).
      assert (E3 : is_LF b3 = false) by (eapply not_LF_high; [|exact T3]; lia).
      cbn [write_newlines]. rewrite E0, E1, E2, E3. cbn [utf8_valid].
      rewrite A0, A1, A2, B0, C1, T2, T3, !andb_true_l. apply IH; [lia|done]. }
  by apply (H (String.length s)).
Qed.

(** X6: a text without carriage returns that is written to a file as
    the notebook writes its test file is read back unchanged by
    [CustomDocumentLoader.lazy_load], line by line, on either platform;
    [MyParser.lazy_parse] on the same file delivers the bytes as
    written, with the line ends of the platform. *)
Theorem write_then_lazy_load
    (os : platform) (fs : filesystem) (path : string) (content : str) (st : log) :
  utf8_valid content = true ->
  free_of CR content = true ->
  let fs' := write_text os fs path content in
  (exists docs : list Document,
      drain fs' (lazy_load {| file_path := path |}) st
        = (st ++ [path], docs, Exhausted)
      /\ page_content <$> docs = iter_lines content
      /\ join (page_content <$> docs) = content)
  /\ join (page_content <$>
             records fs' (lazy_parse MyParser_new (Blob_from_path path ∅)))
     = write_newlines os content.
Proof.
  intros Hv Hcr fs'.
  assert (Hp : fs' !! path = Some (write_newlines os content)).
  { unfold fs', write_text. apply lookup_insert_eq. }
  split.
  - destruct (lazy_load_spec fs' {| file_path := path |} (write_newlines os content)
                st Hp (utf8_valid_write os content Hv)) as (docs & Hd & Hc & _).
    rewrite universal_newlines_write in Hc by done.
    exists docs. repeat split; try done. rewrite Hc. apply join_iter_lines.
  - destruct (lazy_parse_from_path_spec fs' path ∅ (write_newlines os content) [] Hp
                (utf8_valid_write os content Hv)) as (docs & Hd & Hc & _).
    unfold records. rewrite Hd. cbn [fst snd]. rewrite Hc. apply join_iter_lines.
Qed.

Lemma write_then_lazy_load_example :
  let fs' := write_text Windows ∅ "./meow.txt" quality_content in
  (exists docs : list Document,
      drain fs' (lazy_load {| file_path := "./meow.txt" |}) []
        = ([] ++ ["./meow.txt"], docs, Exhausted)
      /\ page_content <$> docs = iter_lines quality_content
      /\ join (page_content <$> docs) = quality_content)
  /\ join (page_content <$>
             records fs' (lazy_parse MyParser_new (Blob_from_path "./meow.txt" ∅)))
     = write_newlines Windows quality_content.
Proof.
  exact (write_then_lazy_load Windows ∅ "./meow.txt" quality_content []
           eq_refl eq_refl).
Defined.

(** ** The loops of the notebook *)

Lemma content_of_Some (fs : filesystem) (p : string) (data : bytes) :
  fs !! p = Some data -> content_of fs p = data.
Proof. intros H. exact (f_equal (default EmptyString) H). Qed.

Lemma print_while_idx_below_5_spec {A} (fs : filesystem) (g : gen A)
    (i : nat) (st : log) :
  print_while_idx_below_5 fs g (Z.of_nat i) st
  = (st ++ resolved fs g, firstn (5 - i) (records fs g), outcome fs g).
Proof.
  revert i st. induction g as [|e|a k IH|path k IH|k IH]; intros i st;
    cbn [print_while_idx_below_5].
  - unfold resolved, records, outcome. simpl. by rewrite app_nil_r, firstn_nil.
  - unfold resolved, records, outcome. simpl. by rewrite app_nil_r, firstn_nil.
  - replace (Z.of_nat i + 1)%Z with (Z.of_nat (S i)) by lia.
    rewrite IH, resolved_Yield, records_Yield, outcome_Yield.
    destruct (Z.ltb_spec (Z.of_nat i) 5) as [Hlt|Hge].
    + replace (5 - i)%nat with (S (5 - S i)) by lia. done.
    + replace (5 - i)%nat with 0%nat by lia.
      replace (5 - S i)%nat with 0%nat by lia. done.
  - rewrite resolved_Open, records_Open, outcome_Open.
    destruct (fs !! path) as [data|]; [|by rewrite app_nil_r, firstn_nil].
    rewrite IH. by rewrite <- app_assoc.
  - apply IH.
Qed.

(** X7: the cell that prints the documents of a loader while
    [idx < 5] prints the first five records of [lazy_load] (all of
    them if there are fewer), but it goes through the whole sequence:
    it reads every file and meets every exception that [load()] would,
    where a consumer that stops after five records reads only an
    initial part of those files. *)
Theorem print_first_five_runs_to_the_end `{BaseLoader L}
    (fs : filesystem) (loader : L) (st : log) :
  snd (fst (print_first_five fs loader st))
    = firstn 5 (snd (fst (load fs loader st)))
  /\ fst (fst (print_first_five fs loader st)) = fst (fst (load fs loader st))
  /\ snd (print_first_five fs loader st) = snd (load fs loader st)
  /\ fst (fst (take fs (lazy_load loader) 5 st))
       `prefix_of` fst (fst (print_first_five fs loader st)).
Proof.
  unfold print_first_five, load.
  rewrite (print_while_idx_below_5_spec fs (lazy_load loader) 0 st), drain_log.
  cbn [fst snd]. repeat split; try done.
  rewrite take_log. cbn [fst]. apply prefix_app, take_resolved_prefix.
Qed.




(** ** [GenericLoader] over listed files, with [MyParser] *)

Lemma lazy_parse_from_path_missing (fs : filesystem) (p : string)
    (md : gmap string pyval) (st : log) :
  fs !! p = None ->
  drain fs (lazy_parse MyParser_new (Blob_from_path p md)) st
  = (st, [], Failed (FileNotFoundError p)).
Proof.
  intros Hp. unfold lazy_parse, MyParser_BaseBlobParser, MyParser_lazy_parse,
    as_bytes_io. cbn [blob_payload Blob_from_path source drain]. by rewrite Hp.
Qed.

Lemma drain_for_each_app {A} (fs : filesystem) (body : Blob -> gen A)
    (pre rest : list string) (st : log) :
  drain fs (for_each (blobs_of (pre ++ rest)) body) st
  = match drain fs (for_each (blobs_of pre) body) st with
    | (st', l, Exhausted) =>
        let '(st'', l', e) := drain fs (for_each (blobs_of rest) body) st' in
        (st'', l ++ l', e)
    | (st', l, Failed e) => (st', l, Failed e)
    end.
Proof.
  revert st. induction pre as [|p pre IH]; intros st.
  - simpl. by destruct (drain fs (for_each (blobs_of rest) body) st) as [[st' l] e].
  - cbn [app blobs_of for_each]. rewrite !drain_yield_from.
    destruct (drain fs (body (Blob_from_path p ∅)) st) as [[st1 l1] [|e1]]; [|done].
    rewrite IH.
    destruct (drain fs (for_each (blobs_of pre) body) st1) as [[st2 l2] [|e2]];
      [|done].
    destruct (drain fs (for_each (blobs_of rest) body) st2) as [[st3 l3] e3].
    by rewrite app_assoc.
Qed.

Lemma fmap_constant {A B} (f : A -> B) (v : B) (l : list A) :
  Forall (fun a => f a = v) l -> f <$> l = replicate (length l) v.
Proof.
  induction 1 as [|a l Ha _ IH]; [done|]. by rewrite fmap_cons, Ha, IH.
Qed.

Lemma drain_listing (fs : filesystem) (paths : list string) (st : log) :
  Forall (fun p => is_Some (fs !! p) /\ utf8_valid (content_of fs p) = true)
    paths ->
  exists docs : list Document,
    drain fs (for_each (blobs_of paths) (lazy_parse MyParser_new)) st
      = (st ++ paths, docs, Exhausted)
    /\ page_content <$> docs
       = concat (map (fun p => iter_lines (content_of fs p)) paths)
    /\ index_of <$> docs
       = concat (map (fun p => (fun i => Some (Z.of_nat i)) <$>
                                 seq 1 (length (iter_lines (content_of fs p))))
                   paths)
    /\ source_of <$> docs
       = concat (map (fun p => replicate (length (iter_lines (content_of fs p)))
                                 (Some (VStr p)))
                   paths).
Proof.
  intros Hall. revert st.
  induction Hall as [|p ps [[data Hp] Hv] _ IH]; intros st.
  - exists []. simpl. by rewrite app_nil_r.
  - rewrite (content_of_Some fs p data Hp) in Hv.
    cbn [blobs_of for_each]. rewrite drain_yield_from.
    destruct (lazy_parse_from_path_spec fs p ∅ data st Hp Hv)
      as (docs1 & Hd1 & Hc1 & Hi1 & Hs1).
    rewrite Hd1. destruct (IH (st ++ [p])) as (docs2 & Hd2 & Hc2 & Hi2 & Hs2).
    rewrite Hd2. exists (docs1 ++ docs2).
    assert (Hlen : length docs1 = length (iter_lines data)).
    { by rewrite <- Hc1, length_fmap. }
    cbn [map concat]. rewrite (content_of_Some fs p data Hp), !fmap_app.
    split; [by rewrite <- app_assoc|].
    split; [by rewrite Hc1, Hc2|].
    split; [by rewrite Hi1, Hi2, Hlen|].
    by rewrite (fmap_constant _ _ _ Hs1), Hs2, Hlen.
Qed.

(** X9: a pass of [GenericLoader.lazy_load] with [MyParser] over listed
    files that all exist and are valid UTF-8 opens every file exactly
    once, in listing order, and ends normally; it yields the lines of
    the files in that order, each with its file as source, and the
    line numbers start again at 1 in every file. *)
Theorem generic_loader_numbers_per_file
    (fs : filesystem) (root glob : string) (progress : bool)
    (paths : list string) (st : log) :
  Forall (fun p => is_Some (fs !! p) /\ utf8_valid (content_of fs p) = true)
    paths ->
  exists docs : list Document,
    drain fs (lazy_load (generic_loader_filesystem root glob progress paths)) st
      = (st ++ paths, docs, Exhausted)
    /\ page_content <$> docs
       = concat (map (fun p => iter_lines (content_of fs p)) paths)
    /\ index_of <$> docs
       = concat (map (fun p => (fun i => Some (Z.of_nat i)) <$>
                                 seq 1 (length (iter_lines (content_of fs p))))
                   paths)
    /\ source_of <$> docs
       = concat (map (fun p => replicate (length (iter_lines (content_of fs p)))
                                 (Some (VStr p)))
                   paths).
Proof.
  intros Hall.
  unfold lazy_load, GenericLoader_BaseLoader, GenericLoader_lazy_load,
    generic_loader_filesystem, yield_blobs, FileSystemBlobLoader_BlobLoader.
  cbn [blob_loader blob_parser listing].
  by apply drain_listing.
Qed.

Lemma generic_loader_numbers_per_file_example :
  exists docs : list Document,
    drain mdx_fs
      (lazy_load (generic_loader_filesystem "." "*.mdx" true
                    ["index.mdx"; "empty.mdx"; "embed_text.mdx"])) []
      = ([] ++ ["index.mdx"; "empty.mdx"; "embed_text.mdx"], docs, Exhausted)
    /\ page_content <$> docs
       = concat (map (fun p => iter_lines (content_of mdx_fs p))
                   ["index.mdx"; "empty.mdx"; "embed_text.mdx"])
    /\ index_of <$> docs
       = concat (map (fun p => (fun i => Some (Z.of_nat i)) <$>
                                 seq 1 (length (iter_lines (content_of mdx_fs p))))
                   ["index.mdx"; "empty.mdx"; "embed_text.mdx"])
    /\ source_of <$> docs
       = concat (map (fun p => replicate (length (iter_lines (content_of mdx_fs p)))
                                 (Some (VStr p)))
                   ["index.mdx"; "empty.mdx"; "embed_text.mdx"]).
Proof.
  assert (Hall : Forall (fun p => is_Some (mdx_fs !! p)
                                  /\ utf8_valid (content_of mdx_fs p) = true)
                   ["index.mdx"; "empty.mdx"; "embed_text.mdx"]).
  { repeat constructor; eexists; reflexivity. }
  exact (generic_loader_numbers_per_file mdx_fs "." "*.mdx" true
           ["index.mdx"; "empty.mdx"; "embed_text.mdx"] [] Hall).
Defined.

(** X10: when a listed file is missing and the files listed before
    it exist and are valid UTF-8, [GenericLoader.lazy_load] with
    [MyParser] yields the records of the files listed before it, then
    raises [FileNotFoundError] for that file; the files listed after
    it are never opened. *)
Theorem generic_loader_missing_file
    (fs : filesystem) (root glob : string) (progress : bool)
    (before after : list string) (missing : string) (st : log) :
  Forall (fun p => is_Some (fs !! p) /\ utf8_valid (content_of fs p) = true)
    before ->
  fs !! missing = None ->
  exists docs : list Document,
    drain fs (lazy_load (generic_loader_filesystem root glob progress before)) st
      = (st ++ before, docs, Exhausted)
    /\ drain fs
         (lazy_load (generic_loader_filesystem root glob progress
                       (before ++ missing :: after))) st
      = (st ++ before, docs, Failed (FileNotFoundError missing)).
Proof.
  intros Hall Hmiss.
  destruct (drain_listing fs before st Hall) as (docs & Hd & _).
  exists docs. split; [exact Hd|].
  unfold lazy_load, GenericLoader_BaseLoader, GenericLoader_lazy_load,
    generic_loader_filesystem, yield_blobs, FileSystemBlobLoader_BlobLoader.
  cbn [blob_loader blob_parser listing].
  rewrite drain_for_each_app, Hd. cbn [blobs_of for_each].
  rewrite drain_yield_from, lazy_parse_from_path_missing by done.
  by rewrite app_nil_r.
Qed.

Lemma generic_loader_missing_file_example :
  exists docs : list Document,
    drain mdx_fs
      (lazy_load (generic_loader_filesystem "." "*.mdx" true
                    ["index.mdx"; "empty.mdx"])) []
      = ([] ++ ["index.mdx"; "empty.mdx"], docs, Exhausted)
    /\ drain mdx_fs
         (lazy_load (generic_loader_filesystem "." "*.mdx" true
                       (["index.mdx"; "empty.mdx"] ++ "gone.mdx" :: ["embed_text.mdx"])))
         []
      = ([] ++ ["index.mdx"; "empty.mdx"], docs, Failed (FileNotFoundError "gone.mdx")).
Proof.
  assert (Hall : Forall (fun p => is_Some (mdx_fs !! p)
                                  /\ utf8_valid (content_of mdx_fs p) = true)
                   ["index.mdx"; "empty.mdx"]).
  { repeat constructor; eexists; reflexivity. }
  exact (generic_loader_missing_file mdx_fs "." "*.mdx" true
           ["index.mdx"; "empty.mdx"] ["embed_text.mdx"] "gone.mdx" [] Hall eq_refl).
Defined.

(** ** What a line number counts *)







(** X12: [MyParser.lazy_parse] treats a file and the same bytes held in
    memory alike: the records have the same contents and the same line
    numbers, in the same order; they differ in their source, the path
    for the file and [None] for the bytes in memory, and in that only
    the blob of the file makes the parser open a file. *)
Theorem lazy_parse_file_or_memory
    (fs : filesystem) (path : string) (md : gmap string pyval) (data : bytes) :
  fs !! path = Some data ->
  let from_file := lazy_parse MyParser_new (Blob_from_path path md) in
  let from_memory := lazy_parse MyParser_new (Blob_data data) in
  page_content <$> records fs from_file = page_content <$> records fs from_memory
  /\ index_of <$> records fs from_file = index_of <$> records fs from_memory
  /\ Forall (fun d => source_of d = Some (VStr path)) (records fs from_file)
  /\ Forall (fun d => source_of d = Some VNone) (records fs from_memory)
  /\ resolved fs from_file = [path]
  /\ resolved fs from_memory = [].
Proof.
  intros Hp from_file from_memory.
  destruct (lazy_parse_from_path_gen fs path md data [] Hp)
    as (fd & Hfd & Hfc & Hfi & Hfs).
  destruct (lazy_parse_InMemory_gen fs (Blob_data data) data [] eq_refl)
    as (md' & Hmd & Hmc & Hmi & Hms).
  subst from_file from_memory. unfold records, resolved.
  rewrite Hfd, Hmd. cbn [fst snd].
  assert (Hlen : length fd = length md').
  { by rewrite <- (length_fmap page_content fd), <- (length_fmap page_content md'),
      Hfc, Hmc. }
  repeat split; try done.
  - by rewrite Hfc, Hmc.
  - by rewrite Hfi, Hmi, Hlen.
Qed.

Lemma lazy_parse_file_or_memory_example :
  let from_file := lazy_parse MyParser_new (Blob_from_path "./meow.txt" ∅) in
  let from_memory := lazy_parse MyParser_new (Blob_data quality_content) in
  page_content <$> records meow_fs from_file
    = page_content <$> records meow_fs from_memory
  /\ index_of <$> records meow_fs from_file = index_of <$> records meow_fs from_memory
  /\ Forall (fun d => source_of d = Some (VStr "./meow.txt")) (records meow_fs from_file)
  /\ Forall (fun d => source_of d = Some VNone) (records meow_fs from_memory)
  /\ resolved meow_fs from_file = ["./meow.txt"]
  /\ resolved meow_fs from_memory = [].
Proof.
  exact (lazy_parse_file_or_memory meow_fs "./meow.txt" ∅ quality_content eq_refl).
Defined.
(** ** Parsing twice *)

Section GeneratorObjects.
Variable fs : filesystem.

(** A turn of the loop overwrites the state of its generator object
    and does not read it. *)
Lemma lazy_parse_turn_frame (g : nat) (blob : Blob) (f : nat) (ln : Z)
    (ss : list bytes) (gs : list frame) (fr : frame) :
  lazy_parse_turn g blob f ln (mkObjects ss (<[g := fr]> gs))
  = lazy_parse_turn g blob f ln (mkObjects ss gs).
Proof.
  unfold lazy_parse_turn. cbn [streams generators].
  by rewrite !list_insert_insert_eq.
Qed.

Lemma lazy_parse_turn_Some (g : nat) (blob : Blob) (f : nat) (ln : Z)
    (m : objects) (unread : bytes) :
  streams m !! f = Some unread ->
  lazy_parse_turn g blob f ln m
  = match unread with
    | EmptyString =>
        Some (mkObjects (streams m) (<[g := Finished]> (generators m)),
              Stop Exhausted)
    | _ =>
        let (line, rest) := readline unread in
        match Document_of_bytes line
                {[ "line_number" := VInt (ln + 1);
                   "source" := of_optional (source blob) ]} with
        | Some doc =>
            Some (mkObjects (<[f := rest]> (streams m))
                    (<[g := AtYield blob f (ln + 1)]> (generators m)),
                  Item doc)
        | None =>
            Some (mkObjects (<[f := rest]> (streams m))
                    (<[g := Finished]> (generators m)),
                  Stop (Failed ValidationError))
        end
    end.
Proof.
  intros Hf. unfold lazy_parse_turn.
  assert (Hf' : @lookup nat string (list bytes) _ f (streams m) = Some unread)
    by exact Hf.
  rewrite Hf'. by destruct unread.
Qed.

(** From the [yield], the generator object goes through the lines
    that its stream has not delivered yet as [lazy_parse_loop] does. *)
Lemma collect_AtYield (blob : Blob) (g f : nat) (ls : list bytes) :
  forall (unread : bytes) (ln : Z) (m : objects) (st : log) (fuel : nat),
    iter_lines unread = ls ->
    generators m !! g = Some (AtYield blob f ln) ->
    streams m !! f = Some unread ->
    (length (records fs (lazy_parse_loop blob ls ln)) < fuel)%nat ->
    exists m' : objects,
      collect fs fuel g m st
      = Some (m', st, records fs (lazy_parse_loop blob ls ln),
              outcome fs (lazy_parse_loop blob ls ln)).
Proof.
  induction ls as [|line ls IH]; intros unread ln m st [|fuel] Hls Hg Hf Hfuel;
    try (simpl in Hfuel; lia).
  - apply iter_lines_nil in Hls. subst unread.
    cbn [collect]. unfold MyParser_lazy_parse_next. rewrite Hg. cbv beta match.
    rewrite (lazy_parse_turn_Some g blob f ln m _ Hf). by eexists.
  - destruct unread as [|c r]; [done|].
    rewrite iter_lines_readline in Hls.
    destruct (readline (String c r)) as [l r'] eqn:Hr.
    injection Hls as -> Hls.
    assert (Hg' : (g < length (generators m))%nat) by (by eapply lookup_lt_Some).
    assert (Hf' : (f < length (streams m))%nat) by (by eapply lookup_lt_Some).
    cbn [collect]. unfold MyParser_lazy_parse_next. rewrite Hg. cbv beta match.
    rewrite (lazy_parse_turn_Some g blob f ln m _ Hf). cbv beta match. rewrite Hr.
    revert Hfuel. cbn [lazy_parse_loop]. unfold Document_of_bytes.
    destruct (utf8_valid line) eqn:Hv; [|by eexists].
    rewrite records_Yield, outcome_Yield. cbn [length]. intros Hfuel.
    destruct (IH r' (ln + 1)%Z
                (mkObjects (<[f := r']> (streams m))
                   (<[g := AtYield blob f (ln + 1)]> (generators m)))
                st fuel Hls) as (m' & Hm').
    + cbn [generators]. by apply list_lookup_insert_eq.
    + cbn [streams]. by apply list_lookup_insert_eq.
    + lia.
    + rewrite Hm'. by eexists.
Qed.

(** A new generator object, iterated to its end, delivers what
    [lazy_parse] delivers, whatever objects are there already. *)
Lemma list_lazy_parse_spec (self : MyParser) (blob : Blob) (m : objects)
    (st : log) (fuel : nat) :
  (length (records fs (lazy_parse self blob)) < fuel)%nat ->
  exists m' : objects,
    list_lazy_parse fs fuel self blob m st
    = Some (m', st ++ resolved fs (lazy_parse self blob),
            records fs (lazy_parse self blob),
            outcome fs (lazy_parse self blob)).
Proof.
  destruct fuel as [|fuel]; [lia|].
  unfold list_lazy_parse, MyParser_lazy_parse_call.
  unfold lazy_parse, MyParser_BaseBlobParser, MyParser_lazy_parse, as_bytes_io.
  set (gs := generators m ++ [NotStarted blob]).
  set (g := length (generators m)).
  assert (Hg : gs !! g = Some (NotStarted blob)) by apply list_lookup_middle, eq_refl.
  assert (Hstarted : forall (data : bytes) (st' : log),
            (length (records fs (lazy_parse_loop blob (iter_lines data) 0)) < S fuel)%nat ->
            exists m' : objects,
              match lazy_parse_turn g blob (length (streams m)) 0
                      (mkObjects (streams m ++ [data]) gs) with
              | Some (m'', Item doc) =>
                  match collect fs fuel g m'' st' with
                  | Some (m3, st3, docs, e) => Some (m3, st3, doc :: docs, e)
                  | None => None
                  end
              | Some (m'', Stop e) => Some (m'', st', [], e)
              | None => None
              end
              = Some (m', st', records fs (lazy_parse_loop blob (iter_lines data) 0),
                      outcome fs (lazy_parse_loop blob (iter_lines data) 0))).
  { intros data st' Hfuel.
    destruct (collect_AtYield blob g (length (streams m)) (iter_lines data) data 0
                (mkObjects (streams m ++ [data])
                   (<[g := AtYield blob (length (streams m)) 0]> gs))
                st' (S fuel) eq_refl) as (m' & Hm'); [| |done|].
    - cbn [generators]. apply list_lookup_insert_eq. by eapply lookup_lt_Some.
    - cbn [streams]. by apply list_lookup_middle.
    - exists m'. rewrite <- Hm'. cbn [collect]. unfold MyParser_lazy_parse_next.
      cbn [generators]. rewrite list_lookup_insert_eq by (by eapply lookup_lt_Some).
      rewrite lazy_parse_turn_frame.
      by destruct (lazy_parse_turn g blob (length (streams m)) 0
                     (mkObjects (streams m ++ [data]) gs)) as [[m'' [doc|e]]|]. }
  assert (Hres : forall data : bytes,
            resolved fs (lazy_parse_loop blob (iter_lines data) 0) = []).
  { intros data. unfold resolved.
    destruct (lazy_parse_loop_gen fs blob (iter_lines data) 0 []) as (docs & Hd & _).
    change (Z.of_nat 0) with 0%Z in Hd. by rewrite Hd. }
  cbn [collect]. unfold MyParser_lazy_parse_next. cbn [generators]. rewrite Hg.
  unfold as_bytes_io_stream. cbn [streams generators].
  destruct (blob_payload blob) as [data|].
  - intros Hfuel. destruct (Hstarted data st Hfuel) as (m' & Hm'). exists m'.
    rewrite Hres, app_nil_r. revert Hm'.
    by destruct (lazy_parse_turn g blob (length (streams m)) 0
                   (mkObjects (streams m ++ [data]) gs)) as [[m'' [doc|e]]|].
  - destruct (source blob) as [path|]; [|intros _; eexists; by rewrite app_nil_r].
    rewrite records_Open, outcome_Open, resolved_Open.
    destruct (fs !! path) as [data|]; [|intros _; eexists; by rewrite app_nil_r].
    intros Hfuel. destruct (Hstarted data (st ++ [path]) Hfuel) as (m' & Hm').
    exists m'. rewrite Hres. revert Hm'.
    by destruct (lazy_parse_turn g blob (length (streams m)) 0
                   (mkObjects (streams m ++ [data]) gs)) as [[m'' [doc|e]]|].
Qed.

(** C5: calling [MyParser.lazy_parse] on the same blob a second time,
    after a first pass that ran to its end or after a pass that the
    consumer abandoned after [n] records, yields the same records
    (contents and metadata) in the same order and ends the same way,
    whatever generator objects and streams the interpreter holds when
    the first call is made: each call makes a new generator object,
    which opens the payload anew (the file is read again) and counts
    from a line number of its own. *)
Theorem lazy_parse_twice
    (self : MyParser) (blob : Blob) (m : objects) (st : log) (n extra : nat) :
  let docs := records fs (lazy_parse self blob) in
  let e := outcome fs (lazy_parse self blob) in
  let opened := resolved fs (lazy_parse self blob) in
  let fuel := S (length docs + extra) in
  exists m1 : objects,
    list_lazy_parse fs fuel self blob m st = Some (m1, st ++ opened, docs, e)
    /\ (exists m2 : objects,
          list_lazy_parse fs fuel self blob m1 (st ++ opened)
          = Some (m2, (st ++ opened) ++ opened, docs, e))
    /\ (let (ma, sta) := abandoned_lazy_parse fs n self blob m st in
        exists m3 : objects,
          list_lazy_parse fs fuel self blob ma sta = Some (m3, sta ++ opened, docs, e)).
Proof.
  intros docs e opened fuel.
  assert (Hfuel : (length (records fs (lazy_parse self blob)) < fuel)%nat).
  { subst fuel docs. lia. }
  destruct (list_lazy_parse_spec self blob m st fuel Hfuel) as (m1 & Hm1).
  exists m1. split; [exact Hm1|]. split.
  - apply list_lazy_parse_spec, Hfuel.
  - destruct (abandoned_lazy_parse fs n self blob m st) as [ma sta].
    apply list_lazy_parse_spec, Hfuel.
Qed.
End GeneratorObjects.

(** On [b"a\nb\nc"], from an interpreter that holds no object yet: a
    pass abandoned after the first record leaves its generator
    suspended at line 1 and its stream at ["b\nc"]; the call made
    after it has a generator and a stream of its own, yields the three
    records and leaves the first generator as it was. *)
Lemma lazy_parse_again_a_b_c :
  abandoned_lazy_parse ∅ 1 MyParser_new (Blob_data a_b_c) (mkObjects [] []) []
    = (mkObjects ["b" +:+ nl +:+ "c"] [AtYield (Blob_data a_b_c) 0 1], [])
  /\ list_lazy_parse ∅ 4 MyParser_new (Blob_data a_b_c)
       (mkObjects ["b" +:+ nl +:+ "c"] [AtYield (Blob_data a_b_c) 0 1]) []
     = Some (mkObjects ["b" +:+ nl +:+ "c"; EmptyString]
               [AtYield (Blob_data a_b_c) 0 1; Finished],
             [],
             [ mkDocument ("a" +:+ nl) {[ "line_number" := VInt 1; "source" := VNone ]};
               mkDocument ("b" +:+ nl) {[ "line_number" := VInt 2; "source" := VNone ]};
               mkDocument "c" {[ "line_number" := VInt 3; "source" := VNone ]} ],
             Exhausted).
Proof. split; reflexivity. Qed.
